(** * Cloze Mask Auto-Fill: the add-on's core logic, embedded and verified

    The add-on ([src/__init__.py]) masks the first occurrence of a target
    word inside a sentence and writes the result into a destination field
    of an Anki note.  This development embeds

    - the string primitives of Python that the code calls ([str.find],
      slicing, [str.strip], [str.split], [in]),
    - [_defaults] and [_load_cfg],
    - [generate_cloze_sentence] and [populate_cloze],
    - [on_edit_focus] and [bulk_generate_cloze],
    - the dictionary that [show_options] saves,

    and proves the properties the specification states about them.

    Python text is a sequence of Unicode code points: a character is an
    [N], a string a [list N].  Dictionaries are [gmap]s.  Exceptions are
    carried by a small error monad.  What belongs to the Python runtime or
    to the host (the whitespace test, lowercasing, the normal form of
    stored text, the field names of a note type) is a parameter. *)

From Stdlib Require Import ZArith Ascii String.
From stdpp Require Import base option list gmap.

Local Open Scope Z_scope.

(** ** Python strings *)

Abbreviation char := N (only parsing).
Abbreviation str := (list N) (only parsing).

(** An ASCII literal of the source as a sequence of code points. *)
Definition u (s : string) : str := N_of_ascii <$> list_ascii_of_string s.

Definition len (s : str) : Z := Z.of_nat (length s).

(** Truth value of a string / of a list: empty is false. *)
Definition truthy {A} (l : list A) : bool :=
  match l with [] => false | _ :: _ => true end.

(** [s.startswith(sub)], used to spell out the search of [str.find]. *)
Fixpoint startswith (s sub : str) {struct sub} : bool :=
  match sub, s with
  | [], _ => true
  | _ :: _, [] => false
  | c :: sub', d :: s' => (c =? d)%N && startswith s' sub'
  end.

(** [s.find(sub)]: the lowest index at which [sub] starts in [s], or -1.
    [find_from i s sub] searches [s], whose first character has index [i]
    in the whole string. *)
Fixpoint find_from (i : Z) (s sub : str) : Z :=
  if startswith s sub then i
  else match s with
       | [] => -1
       | _ :: s' => find_from (i + 1) s' sub
       end.

Definition find (s sub : str) : Z := find_from 0 s sub.

(** [sub in s] for strings. *)
Definition py_in (sub s : str) : bool := negb (find s sub =? -1).

(** A slice bound as Python resolves it: a negative bound counts from the
    end, and the bound is clamped to [0, len s]. *)
Definition slice_bound (s : str) (i : Z) : nat :=
  Z.to_nat (if i <? 0 then Z.max 0 (len s + i) else Z.min i (len s)).

(** [s[:i]] and [s[i:]]. *)
Definition slice_to (s : str) (i : Z) : str := take (slice_bound s i) s.
Definition slice_from (s : str) (i : Z) : str := drop (slice_bound s i) s.

(** [s.split(sep)] for a one-character separator: every separator cuts,
    so a string with n separators gives n + 1 pieces (possibly empty). *)
Fixpoint split (sep : char) (s : str) : list str :=
  match s with
  | [] => [[]]
  | c :: s' =>
      if (c =? sep)%N then [] :: split sep s'
      else match split sep s' with
           | p :: ps => (c :: p) :: ps
           | [] => [[c]]
           end
  end.

Definition comma : char := 44%N.

(** ** Values, exceptions *)

(** What a configuration option holds.  The defaults and the settings form
    store strings and booleans, and these are the values of the
    embedding; a configuration edited by hand can hold any other JSON
    value (null, numbers, lists, objects), which the embedding does not
    cover. *)
Inductive value :=
  | VStr (s : str)
  | VBool (b : bool).

Global Instance value_eq_dec : EqDecision value.
Proof. solve_decision. Defined.

(** [str(v)] *)
Definition py_str (v : value) : str :=
  match v with
  | VStr s => s
  | VBool true => u "True"
  | VBool false => u "False"
  end.

(** [HostError] is the plain [Exception] that a call into the host can
    raise. *)
Inductive exn := TypeError | KeyError | NotFoundError | HostError.

Inductive result (A : Type) :=
  | Ok (a : A)
  | Raise (e : exn).
Arguments Ok {A} a.
Arguments Raise {A} e.

Global Instance result_ret : MRet result := λ A a, Ok a.
Global Instance result_bind : MBind result := λ A B f m,
  match m with Ok a => f a | Raise e => Raise e end.
Global Instance result_fmap : FMap result := λ A B f m,
  match m with Ok a => Ok (f a) | Raise e => Raise e end.

(** [a + b] where [a] is a string: concatenation, a [TypeError] when [b]
    is not a string. *)
Definition str_add (a : str) (b : value) : result str :=
  match b with
  | VStr s => Ok (a ++ s)
  | VBool _ => Raise TypeError
  end.

(** ** The mask generator *)

(** [generate_cloze_sentence(sentence, word, mask)]; [None] is Python's
    [None].  The mask comes from the configuration dictionary, whose
    values are objects. *)
Definition generate_cloze_sentence (sentence word : str) (mask : value)
  : result (option str) :=
  if negb (truthy sentence) || negb (truthy word) then Ok None
  else
    let idx := find sentence word in
    if idx =? -1 then Ok None
    else
      let before := slice_to sentence idx in
      let after := slice_from sentence (idx + len word) in
      bm ← str_add before mask;
      Ok (Some (bm ++ after)).

(** ** Whitespace and case

    [str.strip] and [str.lower] follow the Unicode tables of the Python
    runtime, which are not part of the add-on: the embedding takes the
    whitespace test and the lowercasing function as parameters. *)

Section Populate.

Variable isspace : char → bool.
Variable lower : str → str.

Fixpoint lstrip (s : str) : str :=
  match s with
  | [] => []
  | c :: s' => if isspace c then lstrip s' else s
  end.

Definition rstrip (s : str) : str := reverse (lstrip (reverse s)).

(** [s.strip()] *)
Definition strip (s : str) : str := rstrip (lstrip s).

(** ** Configuration *)

(** [CFG.get(key, dflt)] *)
Definition cfg_get (CFG : gmap str value) (key : string) (dflt : value) : value :=
  default dflt (CFG !! u key).

Definition mask_default : str := [9724%N; 9724%N; 9724%N].

Definition _defaults : gmap str value :=
  <[u "sentenceField" := VStr (u "Sentence")]>
  (<[u "wordField" := VStr (u "Reading")]>
  (<[u "destinationField" := VStr (u "ClozeSentence")]>
  (<[u "noteTypes" := VStr []]>
  (<[u "lookupOnAdd" := VBool true]>
  (<[u "maskString" := VStr mask_default]>
  (<[u "bulkActionLabel" := VStr (u "Generate Cloze Masks")]>
  (<[u "debug" := VBool false]> ∅))))))).

(** [_load_cfg()]; the argument is what the host's [getConfig] returns
    ([None] when it has nothing stored; [x or {}] is [{}] for [None] and
    for the empty dictionary).  [{**a, **b}] keeps the entries of [b]
    where both have the key. *)
Definition _load_cfg (stored : option (gmap str value)) : gmap str value :=
  let user := default ∅ stored in
  user ∪ _defaults.

(** [a or b] on strings. *)
Definition str_or (a b : str) : str := if truthy a then a else b.

(** The dictionary [show_options] builds and saves when the dialog is
    accepted.  The arguments are the texts of the five line edits and the
    states of the two check boxes; [CFG] is the configuration the dialog
    was opened with. *)
Definition new_cfg (CFG : gmap str value)
    (w_sentence w_word w_dest w_types w_mask : str)
    (w_lookup w_debug : bool) : gmap str value :=
  <[u "sentenceField" := VStr (str_or (strip w_sentence) (u "Sentence"))]>
  (<[u "wordField" := VStr (str_or (strip w_word) (u "Reading"))]>
  (<[u "destinationField" := VStr (str_or (strip w_dest) (u "ClozeSentence"))]>
  (<[u "noteTypes" := VStr (strip w_types)]>
  (<[u "maskString" := VStr (str_or (strip w_mask) mask_default)]>
  (<[u "lookupOnAdd" := VBool w_lookup]>
  (<[u "bulkActionLabel" :=
       cfg_get CFG "bulkActionLabel" (VStr (u "Generate Cloze Masks"))]>
  (<[u "debug" := VBool w_debug]> ∅))))))).

(** ** Notes

    The note is the host's object.  The add-on uses: [note.note_type()]
    (a dictionary with the key ["name"], or [None]), [key in note],
    [note[key]], [note[key] = v] and [note.id]. *)

Record Notetype := { nt_name : str }.

Record Note := {
  note_id : Z;
  note_type : option Notetype;
  note_fields : gmap str str
}.

(** [nt["name"]] on the result of [note.note_type()]: subscripting [None]
    raises. *)
Definition type_name (nt : option Notetype) : result str :=
  match nt with
  | Some t => Ok (nt_name t)
  | None => Raise TypeError
  end.

(** [key in note]: the note's field names are strings. *)
Definition note_contains (note : Note) (key : value) : bool :=
  match key with
  | VStr k => bool_decide (is_Some (note_fields note !! k))
  | VBool _ => false
  end.

(** [note[key]] *)
Definition note_getitem (note : Note) (key : value) : result str :=
  match key with
  | VStr k => match note_fields note !! k with
              | Some v => Ok v
              | None => Raise KeyError
              end
  | VBool _ => Raise KeyError
  end.

(** [note[key] = v] *)
Definition note_setitem (note : Note) (key : value) (v : str) : result Note :=
  match key with
  | VStr k => match note_fields note !! k with
              | Some _ => Ok {| note_id := note_id note;
                                note_type := note_type note;
                                note_fields := <[k := v]> (note_fields note) |}
              | None => Raise KeyError
              end
  | VBool _ => Raise KeyError
  end.

(** ** The record populator *)

(** The list comprehension that opens [populate_cloze]. *)
Definition nt_filter (CFG : gmap str value) : list str :=
  t ← split comma (py_str (cfg_get CFG "noteTypes" (VStr [])));
  if truthy (strip t) then [lower (strip t)] else [].

(** The condition of the first [if] of [populate_cloze]:
    [nt_filter and not any(t in note_name for t in nt_filter)]. *)
Definition type_filtered (filter : list str) (note_name : str) : bool :=
  truthy filter && negb (existsb (λ t, py_in t note_name) filter).

(** [populate_cloze(note)] with the global [CFG] as an argument.  The
    function mutates the note and returns a boolean: here it returns the
    boolean with the note as it is after the call.  No statement of the
    function writes to the note before a point that can raise, so a raised
    exception leaves the note as it was.  [log] only prints. *)
Definition populate_cloze (CFG : gmap str value) (note : Note)
  : result (bool * Note) :=
  let filter := nt_filter CFG in
  name ← type_name (note_type note);
  let note_name := lower name in
  if type_filtered filter note_name then Ok (false, note)
  else
    let sentence_field := cfg_get CFG "sentenceField" (VStr (u "Sentence")) in
    let word_field := cfg_get CFG "wordField" (VStr (u "Reading")) in
    let dest_field := cfg_get CFG "destinationField" (VStr (u "ClozeSentence")) in
    let mask := cfg_get CFG "maskString" (VStr mask_default) in
    if negb (note_contains note sentence_field)
       || negb (note_contains note word_field)
       || negb (note_contains note dest_field)
    then Ok (false, note)
    else
      sentence ← strip <$> note_getitem note sentence_field;
      word ← strip <$> note_getitem note word_field;
      if negb (truthy sentence) || negb (truthy word) then Ok (false, note)
      else
        clozed ← generate_cloze_sentence sentence word mask;
        match clozed with
        | None => Ok (false, note)
        | Some c =>
            note' ← note_setitem note dest_field c;
            Ok (true, note')
        end.

(** ** The bulk action *)

Inductive tip :=
  | NoNotesSelected
  | UpdatedNotes (changed : nat)
  | NoNotesNeeded.

(** [col.get_note(nid)]: the host raises when it has no such note. *)
Definition get_note (col : gmap Z Note) (nid : Z) : result Note :=
  match col !! nid with
  | Some note => Ok note
  | None => Raise NotFoundError
  end.

(** The host does not store field text as it is handed over: it brings
    it to its normal form first (Unicode NFC).  The normalisation belongs
    to the host and is a parameter, like [isspace] and [lower]. *)
Variable normalize : str → str.

(** The note as the host stores it. *)
Definition stored_note (note : Note) : Note :=
  {| note_id := note_id note;
     note_type := note_type note;
     note_fields := normalize <$> note_fields note |}.

(** [col.update_note(note)] *)
Definition update_note (col : gmap Z Note) (note : Note) : gmap Z Note :=
  <[note_id note := stored_note note]> col.

(** The [for] loop of [bulk_generate_cloze].  The collection is the
    host's store, so what was written before an exception stays written:
    the loop returns the collection together with the count or the
    exception. *)
Fixpoint bulk_loop (CFG : gmap str value) (col : gmap Z Note) (changed : nat)
    (nids : list Z) : gmap Z Note * result nat :=
  match nids with
  | [] => (col, Ok changed)
  | nid :: rest =>
      match get_note col nid with
      | Raise e => (col, Raise e)
      | Ok note =>
          match populate_cloze CFG note with
          | Raise e => (col, Raise e)
          | Ok (true, note') =>
              let col' := if decide (note_id note' = 0) then col
                          else update_note col note' in
              bulk_loop CFG col' (S changed) rest
          | Ok (false, _) => bulk_loop CFG col changed rest
          end
      end
  end.

(** [bulk_generate_cloze(nids)]: the reloaded configuration, the
    collection afterwards, and the tooltip shown or the exception that
    left the function. *)
Definition bulk_generate_cloze (stored : option (gmap str value))
    (col : gmap Z Note) (nids : list Z)
  : gmap str value * gmap Z Note * result tip :=
  let CFG := _load_cfg stored in
  if negb (truthy nids) then (CFG, col, Ok NoNotesSelected)
  else
    let '(col', r) := bulk_loop CFG col 0%nat nids in
    (CFG, col',
     changed ← r;
     Ok (match changed with
         | O => NoNotesNeeded
         | S _ => UpdatedNotes changed
         end)).

End Populate.

(** ** The editor hook *)

(** Truth value of an option of the configuration, as [if] takes it. *)
Definition value_truthy (v : value) : bool :=
  match v with
  | VStr s => truthy s
  | VBool b => b
  end.

(** [names.index(x)] for a string [x]: the first position holding [x];
    [None] stands for the [ValueError] of a name that is not there.
    [index_from i names x] searches [names], whose head has position [i]. *)
Fixpoint index_from (i : Z) (names : list str) (x : str) : option Z :=
  match names with
  | [] => None
  | y :: names' => if decide (y = x) then Some i else index_from (i + 1) names' x
  end.

(** The two [try: names.index(...) except ValueError: None] blocks of
    [on_edit_focus].  The names are strings, so an option that is not a
    string is equal to none of them. *)
Definition index_or_none (names : list str) (key : value) : option Z :=
  match key with
  | VStr k => index_from 0 names k
  | VBool _ => None
  end.

(** [field_idx == idx] where [idx] is an index or [None]. *)
Definition idx_eq (field_idx : Z) (idx : option Z) : bool :=
  match idx with
  | Some i => field_idx =? i
  | None => false
  end.

Section Editor.

Variable isspace : char → bool.
Variable lower : str → str.

(** [col.models.field_names(model)], the host's list of the field names
    of a note type, in order. *)
Variable field_names : option Notetype → result (list str).

(** [note.flush()]: the host refuses a note that was never saved, whose
    identifier is 0, with an exception. *)
Definition flush (note : Note) : result unit :=
  if decide (note_id note = 0) then Raise HostError else Ok ().

(** [on_edit_focus(flag, note, field_idx)].  The result is the returned
    flag, whether the note was flushed, and the note after the call.
    When [flush] raises, the note has been written to already; the result
    is then the exception alone. *)
Definition on_edit_focus {A : Type} (CFG : gmap str value) (flag : A) (note : Note)
    (field_idx : Z) : result (A * bool * Note) :=
  if negb (value_truthy (cfg_get CFG "lookupOnAdd" (VBool true)))
  then Ok (flag, false, note)
  else
    let model := note_type note in
    names ← field_names model;
    let sent_idx :=
      index_or_none names (cfg_get CFG "sentenceField" (VStr (u "Sentence"))) in
    let word_idx :=
      index_or_none names (cfg_get CFG "wordField" (VStr (u "Reading"))) in
    if idx_eq field_idx sent_idx || idx_eq field_idx word_idx then
      r ← populate_cloze isspace lower CFG note;
      let '(changed, note') := (r : bool * Note) in
      if changed then _ ← flush note'; Ok (flag, true, note')
      else Ok (flag, false, note')
    else Ok (flag, false, note).

End Editor.

(** ** Concrete tables for worked examples *)

(** The code points for which [str.isspace] holds. *)
Definition isspace_table (c : char) : bool :=
  ((9 <=? c) && (c <=? 13) || (28 <=? c) && (c <=? 32)
   || (c =? 133) || (c =? 160) || (c =? 5760)
   || (8192 <=? c) && (c <=? 8202)
   || (c =? 8232) || (c =? 8233) || (c =? 8239) || (c =? 8287)
   || (c =? 12288))%N.

(** The examples use text that is in normal form already, which the
    normalisation of the host leaves as it is. *)
Definition already_normal (s : str) : str := s.

(** Lowercasing of the letters A-Z; other code points are kept.  This is
    [str.lower] on text whose cased letters are all ASCII. *)
Definition lower_ascii (s : str) : str :=
  (λ c, if (65 <=? c) && (c <=? 90) then c + 32 else c)%N <$> s.

(** ** Specification vocabulary *)

(** [w] occurs in [s] as a contiguous substring. *)
Definition substring (w s : str) : Prop :=
  ∃ pre post, s = pre ++ w ++ post.

(** [w] occurs in [s] at index [length pre], and nowhere before. *)
Definition first_occurrence (w s pre post : str) : Prop :=
  s = pre ++ w ++ post ∧
  ∀ pre' post', s = pre' ++ w ++ post' → (length pre ≤ length pre')%nat.

(** The four options [populate_cloze] reads, as it reads them. *)
Definition sentence_field (CFG : gmap str value) : value :=
  cfg_get CFG "sentenceField" (VStr (u "Sentence")).
Definition word_field (CFG : gmap str value) : value :=
  cfg_get CFG "wordField" (VStr (u "Reading")).
Definition dest_field (CFG : gmap str value) : value :=
  cfg_get CFG "destinationField" (VStr (u "ClozeSentence")).
Definition mask_string (CFG : gmap str value) : value :=
  cfg_get CFG "maskString" (VStr mask_default).

(** A note after [note[key] = v] for a field the note has. *)
Definition with_field (note : Note) (k v : str) : Note :=
  {| note_id := note_id note;
     note_type := note_type note;
     note_fields := <[k := v]> (note_fields note) |}.

Section Vocabulary.

Variable isspace : char → bool.
Variable lower : str → str.

(** One of the checks of [populate_cloze] fails on the note: its type is
    filtered out, a named field is missing, the trimmed sentence or word
    is empty, or the generator returns [None]. *)
Inductive check_fails (CFG : gmap str value) (note : Note) : Prop :=
  | type_filtered_out nt :
      note_type note = Some nt →
      type_filtered (nt_filter isspace lower CFG) (lower (nt_name nt)) = true →
      check_fails CFG note
  | field_missing :
      note_contains note (sentence_field CFG) = false
      ∨ note_contains note (word_field CFG) = false
      ∨ note_contains note (dest_field CFG) = false →
      check_fails CFG note
  | value_empty sv wv :
      note_getitem note (sentence_field CFG) = Ok sv →
      note_getitem note (word_field CFG) = Ok wv →
      strip isspace sv = [] ∨ strip isspace wv = [] →
      check_fails CFG note
  | not_applicable sv wv :
      note_getitem note (sentence_field CFG) = Ok sv →
      note_getitem note (word_field CFG) = Ok wv →
      generate_cloze_sentence (strip isspace sv) (strip isspace wv)
        (mask_string CFG) = Ok None →
      check_fails CFG note.

(** The filter tokens in the words of the specification: split on commas,
    trim each piece, drop the pieces that are empty after trimming,
    lowercase what is left. *)
Definition tokens_spec (s : str) : list str :=
  lower <$> filter (λ p, p ≠ []) (strip isspace <$> split comma s).

(** A string made of commas and whitespace only. *)
Definition commas_and_spaces (s : str) : Prop :=
  Forall (λ c, c = comma ∨ isspace c = true) s.

(** What happens at one identifier of a batch goes wrong: the note cannot
    be fetched, or [populate_cloze] raises on it. *)
Definition record_fails (CFG : gmap str value) (col : gmap Z Note)
    (nid : Z) (e : exn) : Prop :=
  get_note col nid = Raise e
  ∨ ∃ note, get_note col nid = Ok note
            ∧ populate_cloze isspace lower CFG note = Raise e.

End Vocabulary.

(** [sep.join(pieces)] for a one-character separator. *)
Fixpoint join (sep : char) (pieces : list str) : str :=
  match pieces with
  | [] => []
  | [p] => p
  | p :: rest => p ++ sep :: join sep rest
  end.

(** Every note of the collection is stored under its own identifier. *)
Definition ids_match (col : gmap Z Note) : Prop :=
  ∀ nid note, col !! nid = Some note → note_id note = nid.

(** ** Example records *)

Definition example_note (ty : option Notetype) (nid : Z)
    (sentence word cloze : str) : Note :=
  {| note_id := nid;
     note_type := ty;
     note_fields := <[u "Sentence" := sentence]>
                    (<[u "Reading" := word]>
                    (<[u "ClozeSentence" := cloze]> ∅)) |}.

Definition vocab : option Notetype := Some {| nt_name := u "Vocab" |}.

(** A note whose destination already holds the masked sentence. *)
Definition filled_note : Note :=
  example_note vocab 1 (u "ab") (u "b") (u "a" ++ mask_default).

(** A collection whose note 1 has lost its note type and whose note 2 is
    an ordinary note still to be filled. *)
Definition broken_note : Note := example_note None 1 (u "ab") (u "b") [].
Definition fresh_note : Note := example_note vocab 2 (u "ab") (u "b") [].
Definition example_col : gmap Z Note :=
  <[1 := broken_note]> (<[2 := fresh_note]> ∅).

(** * Properties *)

(** ** [str.find] *)

Lemma startswith_prefix s sub : startswith s sub = true ↔ sub `prefix_of` s.
Proof.
  revert s. induction sub as [|c sub IH]; intros s; simpl.
  - split; [intros _; apply prefix_nil | done].
  - destruct s as [|d s].
    + split; [done | intros H; by apply prefix_nil_not in H].
    + rewrite andb_true_iff, N.eqb_eq, IH. split.
      * intros [-> H]. by apply prefix_cons.
      * intros H. split; [by apply prefix_cons_inv_1 in H | by apply prefix_cons_inv_2 in H].
Qed.

Lemma startswith_false_no_head s sub post :
  startswith s sub = false → s ≠ sub ++ post.
Proof.
  intros Hf ->. assert (startswith (sub ++ post) sub = true) as Ht.
  { apply startswith_prefix. by exists post. }
  congruence.
Qed.

(** The search either fails, and then there is no occurrence at all, or
    returns the offset of the first occurrence. *)
Lemma find_from_spec s sub : ∀ i,
  (find_from i s sub = -1 ∧ ¬ substring sub s) ∨
  (∃ pre post, first_occurrence sub s pre post ∧ find_from i s sub = i + len pre).
Proof.
  induction s as [|c s IH]; intros i; simpl.
  - destruct (startswith [] sub) eqn:Hsw.
    + right. apply startswith_prefix in Hsw as [post Hpost].
      exists [], post. split; [split; [done | simpl; lia] | unfold len; simpl; lia].
    + left. split; [done|]. intros (pre & post & Heq).
      destruct pre; [|done]. by apply (startswith_false_no_head _ _ post) in Hsw.
  - destruct (startswith (c :: s) sub) eqn:Hsw.
    + right. apply startswith_prefix in Hsw as [post Hpost].
      exists [], post. split; [split; [done | simpl; lia] | unfold len; simpl; lia].
    + destruct (IH (i + 1)) as [[Hm Hno] | (pre & post & [Heq Hleast] & Hidx)].
      * left. split; [done|]. intros (pre & post & Heq).
        destruct pre as [|d pre]; simpl in Heq.
        { by apply (startswith_false_no_head _ _ post) in Hsw. }
        injection Heq as -> Heq. apply Hno. by exists pre, post.
      * right. exists (c :: pre), post. split; [split|].
        -- simpl. by rewrite Heq.
        -- intros pre' post' Heq'. destruct pre' as [|d pre']; simpl in Heq'.
           { by apply (startswith_false_no_head _ _ post') in Hsw. }
           injection Heq' as -> Heq'. simpl. apply Hleast in Heq'. lia.
        -- rewrite Hidx. unfold len. simpl. lia.
Qed.

Lemma find_spec s sub :
  (find s sub = -1 ∧ ¬ substring sub s) ∨
  (∃ pre post, first_occurrence sub s pre post ∧ find s sub = len pre).
Proof.
  destruct (find_from_spec s sub 0) as [H | (pre & post & H1 & H2)]; [by left|].
  right. exists pre, post. split; [done|]. unfold find. rewrite H2. lia.
Qed.



(** Two first occurrences of the same word start at the same place. *)
Lemma first_occurrence_unique w s pre post pre' post' :
  first_occurrence w s pre post → first_occurrence w s pre' post' →
  pre = pre' ∧ post = post'.
Proof.
  intros [Heq Hl] [Heq' Hl'].
  assert (length pre = length pre') as Hlen.
  { apply Hl in Heq'. apply Hl' in Heq. lia. }
  assert (pre = pre') as ->.
  { apply (f_equal (take (length pre))) in Heq'.
    rewrite Heq in Heq' at 1. rewrite take_app_length in Heq'.
    rewrite Hlen in Heq'. by rewrite take_app_length in Heq'. }
  split; [done|]. rewrite Heq in Heq'. by simplify_list_eq.
Qed.

(** The two slices of [generate_cloze_sentence] around a found word. *)
Lemma slices_around pre w post :
  slice_to (pre ++ w ++ post) (len pre) = pre ∧
  slice_from (pre ++ w ++ post) (len pre + len w) = post.
Proof.
  unfold slice_to, slice_from, slice_bound, len.
  rewrite !length_app. split.
  - replace (Z.to_nat _) with (length pre).
    + by rewrite take_app_length.
    + destruct (Z.ltb_spec (Z.of_nat (length pre)) 0); lia.
  - replace (Z.to_nat _) with (length pre + length w)%nat.
    + by rewrite app_assoc, <- length_app, drop_app_length.
    + destruct (Z.ltb_spec (Z.of_nat (length pre) + Z.of_nat (length w)) 0); lia.
Qed.

(** What the generator computes in each of its three cases. *)
Lemma generate_cases sentence word mask :
  (sentence = [] ∨ word = [] ∨ ¬ substring word sentence) ∧
    generate_cloze_sentence sentence word mask = Ok None
  ∨ ∃ pre post, sentence ≠ [] ∧ word ≠ [] ∧
      first_occurrence word sentence pre post ∧
      generate_cloze_sentence sentence word mask
      = (bm ← str_add pre mask; Ok (Some (bm ++ post))).
Proof.
  unfold generate_cloze_sentence.
  destruct sentence as [|c s]; [left; split; [by left | done]|].
  destruct word as [|d w]; [left; split; [right; by left | done]|].
  simpl negb. simpl orb. cbv iota.
  destruct (find_spec (c :: s) (d :: w)) as [[Hm Hno] | (pre & post & Hfo & Hidx)].
  - left. split; [right; by right|]. by rewrite Hm.
  - right. exists pre, post. split; [done|]. split; [done|]. split; [done|].
    rewrite Hidx. destruct (Z.eqb_spec (len pre) (-1)) as [Hneg|_].
    { unfold len in Hneg. lia. }
    destruct Hfo as [Heq _]. rewrite Heq.
    destruct (slices_around pre (d :: w) post) as [-> ->]. done.
Qed.

(** ** The mask generator *)

(** With a found word and a string as mask, the result is the text before
    the first occurrence, the mask, and the text after the occurrence. *)
Lemma generate_found (s w m : str) :
  s ≠ [] → w ≠ [] → substring w s →
  ∃ pre post,
    first_occurrence w s pre post ∧
    generate_cloze_sentence s w (VStr m) = Ok (Some (pre ++ m ++ post)).
Proof.
  intros Hs Hw Hsub.
  destruct (generate_cases s w (VStr m)) as [[Hc _] | (pre & post & _ & _ & Hfo & Hgen)].
  { destruct Hc as [? | [? | ?]]; done. }
  exists pre, post. split; [done|].
  rewrite Hgen. simpl. by rewrite <- app_assoc.
Qed.

(** C1.  When the word occurs in the sentence (both non-empty), the
    generator returns the sentence with the span of the first occurrence
    of the word (least start index, as long as the word) replaced by the
    mask: the text before the span and the text after it are kept, every
    character before the span keeps its index, every character after it
    keeps its value and its distance to the end of the span, and a later
    occurrence of the word is still there, whole, in the result. *)
Theorem generate_replaces_first_occurrence (s w m : str) :
  s ≠ [] → w ≠ [] → substring w s →
  ∃ pre post,
    first_occurrence w s pre post ∧
    generate_cloze_sentence s w (VStr m) = Ok (Some (pre ++ m ++ post)) ∧
    (∀ i, (i < length pre)%nat → (pre ++ m ++ post) !! i = s !! i) ∧
    (∀ j, (pre ++ m ++ post) !! (length pre + length m + j)%nat
          = s !! (length pre + length w + j)%nat) ∧
    (∀ pre2 post2, s = pre2 ++ w ++ post2 →
       (length pre + length w ≤ length pre2)%nat →
       ∃ mid, pre2 = pre ++ w ++ mid ∧
              pre ++ m ++ post = (pre ++ m ++ mid) ++ w ++ post2).
Proof.
  intros Hs Hw Hsub.
  destruct (generate_found s w m Hs Hw Hsub) as (pre & post & Hfo & Hgen).
  exists pre, post. destruct Hfo as [Heq Hleast].
  split; [done|]. split; [done|].
  split; [|split].
  - intros i Hi. rewrite Heq. by rewrite !lookup_app_l.
  - intros j. rewrite Heq.
    rewrite !(app_assoc pre), <- !length_app.
    rewrite !lookup_app_r by lia. f_equal. lia.
  - intros pre2 post2 Heq2 Hlen.
    assert (take (length (pre ++ w)) pre2 = pre ++ w) as Ht.
    { transitivity (take (length (pre ++ w)) s).
      - rewrite Heq2. rewrite take_app_le; [done|]. rewrite length_app. lia.
      - rewrite Heq, app_assoc. apply take_app_length. }
    assert (pre2 = (pre ++ w) ++ drop (length (pre ++ w)) pre2) as Hpre2.
    { rewrite <- Ht at 1. by rewrite take_drop. }
    exists (drop (length (pre ++ w)) pre2). split.
    + by rewrite app_assoc.
    + rewrite Hpre2 in Heq2. rewrite Heq in Heq2.
      rewrite <- !app_assoc in Heq2. apply app_inv_head in Heq2.
      apply app_inv_head in Heq2. rewrite Heq2. by rewrite <- !app_assoc.
Qed.

Lemma generate_replaces_first_occurrence_witness :
  ∃ pre post,
    first_occurrence (u "bc") (u "abcabc") pre post ∧
    generate_cloze_sentence (u "abcabc") (u "bc") (VStr (u "__"))
    = Ok (Some (pre ++ u "__" ++ post)) ∧
    (∀ i, (i < length pre)%nat → (pre ++ u "__" ++ post) !! i = u "abcabc" !! i) ∧
    (∀ j, (pre ++ u "__" ++ post) !! (length pre + length (u "__") + j)%nat
          = u "abcabc" !! (length pre + length (u "bc") + j)%nat) ∧
    (∀ pre2 post2, u "abcabc" = pre2 ++ u "bc" ++ post2 →
       (length pre + length (u "bc") ≤ length pre2)%nat →
       ∃ mid, pre2 = pre ++ u "bc" ++ mid ∧
              pre ++ u "__" ++ post = (pre ++ u "__" ++ mid) ++ u "bc" ++ post2).
Proof.
  apply (generate_replaces_first_occurrence (u "abcabc") (u "bc") (u "__"));
    [discriminate | discriminate | by exists (u "a"), (u "abc")].
Defined.

(** C2.  The generator returns [None] exactly when the sentence is empty,
    or the word is empty, or the word does not occur in the sentence; in
    every other case it returns a string. *)
Theorem generate_none_iff (s w m : str) :
  (generate_cloze_sentence s w (VStr m) = Ok None
   ↔ s = [] ∨ w = [] ∨ ¬ substring w s) ∧
  (generate_cloze_sentence s w (VStr m) = Ok None
   ∨ ∃ r, generate_cloze_sentence s w (VStr m) = Ok (Some r)).
Proof.
  destruct (generate_cases s w (VStr m))
    as [[Hc Hgen] | (pre & post & Hs & Hw & [Heq _] & Hgen)].
  - split; [done | by left].
  - simpl in Hgen. split; [|right; eauto]. split.
    + rewrite Hgen. discriminate.
    + intros [? | [? | Hno]]; [done | done |]. exfalso. apply Hno. by exists pre, post.
Qed.

(** C9.  An empty mask is accepted: with the word occurring in the
    sentence (both non-empty), the generator with the mask [""] returns
    the sentence with the first occurrence of the word deleted; with any
    mask, the length of the result is
    [len sentence - len word + len mask]. *)
Theorem generate_empty_mask_deletes (s w m : str) :
  s ≠ [] → w ≠ [] → substring w s →
  (∃ pre post,
     first_occurrence w s pre post ∧
     generate_cloze_sentence s w (VStr []) = Ok (Some (pre ++ post))) ∧
  (∃ r, generate_cloze_sentence s w (VStr m) = Ok (Some r) ∧
        len r = len s - len w + len m).
Proof.
  intros Hs Hw Hsub. split.
  - destruct (generate_found s w [] Hs Hw Hsub) as (pre & post & Hfo & Hgen).
    exists pre, post. by split.
  - destruct (generate_found s w m Hs Hw Hsub) as (pre & post & [Heq _] & Hgen).
    exists (pre ++ m ++ post). split; [done|].
    rewrite Heq. unfold len. rewrite !length_app. lia.
Qed.

Lemma generate_empty_mask_deletes_witness :
  (∃ pre post,
     first_occurrence (u "bc") (u "abcabc") pre post ∧
     generate_cloze_sentence (u "abcabc") (u "bc") (VStr [])
     = Ok (Some (pre ++ post))) ∧
  (∃ r, generate_cloze_sentence (u "abcabc") (u "bc") (VStr (u "__"))
        = Ok (Some r) ∧
        len r = len (u "abcabc") - len (u "bc") + len (u "__")).
Proof.
  apply (generate_empty_mask_deletes (u "abcabc") (u "bc") (u "__"));
    [discriminate | discriminate | by exists (u "a"), (u "abc")].
Defined.

(** ** The record populator *)

Section PopulateProperties.

Variable isspace : char → bool.
Variable lower : str → str.

Abbreviation populate := (populate_cloze isspace lower).
Abbreviation trim := (strip isspace).

Lemma note_contains_true note key :
  note_contains note key = true →
  ∃ k v, key = VStr k ∧ note_fields note !! k = Some v.
Proof.
  destruct key as [k|b]; simpl; [|done].
  intros H. apply bool_decide_eq_true in H as [v Hv]. eauto.
Qed.

Lemma note_contains_false note key :
  note_contains note key = false → ∃ e, note_getitem note key = Raise e.
Proof.
  destruct key as [k|b]; simpl; [|eauto].
  intros H. apply bool_decide_eq_false in H.
  destruct (note_fields note !! k) eqn:Hk; [|eauto].
  exfalso. apply H. eauto.
Qed.

(** [populate_cloze] unfolded once, its three guards named. *)
Lemma populate_cloze_unfold CFG note :
  populate CFG note =
  name ← type_name (note_type note);
  if type_filtered (nt_filter isspace lower CFG) (lower name) then Ok (false, note)
  else if negb (note_contains note (sentence_field CFG))
          || negb (note_contains note (word_field CFG))
          || negb (note_contains note (dest_field CFG))
  then Ok (false, note)
  else
    sentence ← trim <$> note_getitem note (sentence_field CFG);
    word ← trim <$> note_getitem note (word_field CFG);
    if negb (truthy sentence) || negb (truthy word) then Ok (false, note)
    else
      clozed ← generate_cloze_sentence sentence word (mask_string CFG);
      match clozed with
      | None => Ok (false, note)
      | Some c => note' ← note_setitem note (dest_field CFG) c; Ok (true, note')
      end.
Proof. reflexivity. Qed.

(** The outcomes of a call that returns. *)
Lemma populate_cloze_inv CFG note b note' :
  populate CFG note = Ok (b, note') →
  (b = false ∧ note' = note)
  ∨ ∃ nt ks kw kd sv wv c,
      note_type note = Some nt
      ∧ type_filtered (nt_filter isspace lower CFG) (lower (nt_name nt)) = false
      ∧ sentence_field CFG = VStr ks ∧ word_field CFG = VStr kw
      ∧ dest_field CFG = VStr kd
      ∧ note_fields note !! ks = Some sv ∧ note_fields note !! kw = Some wv
      ∧ is_Some (note_fields note !! kd)
      ∧ generate_cloze_sentence (trim sv) (trim wv) (mask_string CFG) = Ok (Some c)
      ∧ b = true ∧ note' = with_field note kd c.
Proof.
  rewrite populate_cloze_unfold.
  destruct (note_type note) as [nt|] eqn:Hnt; [|done]. simpl.
  destruct (type_filtered _ _) eqn:Hf; [intros [= <- <-]; by left|].
  destruct (note_contains note (sentence_field CFG)) eqn:Hs;
    [|intros [= <- <-]; by left].
  destruct (note_contains note (word_field CFG)) eqn:Hw;
    [|intros [= <- <-]; by left].
  destruct (note_contains note (dest_field CFG)) eqn:Hd;
    [|intros [= <- <-]; by left].
  apply note_contains_true in Hs as (ks & sv & Hks & Hsv).
  apply note_contains_true in Hw as (kw & wv & Hkw & Hwv).
  apply note_contains_true in Hd as (kd & dv & Hkd & Hdv).
  rewrite Hks, Hkw, Hkd. simpl. rewrite Hsv, Hwv. simpl.
  destruct (negb (truthy (trim sv)) || negb (truthy (trim wv))) eqn:He;
    [intros [= <- <-]; by left|].
  destruct (generate_cloze_sentence _ _ _) as [[c|]|e] eqn:Hg; simpl;
    [|intros [= <- <-]; by left|done].
  rewrite Hdv. simpl. intros [= <- <-]. right.
  exists nt, ks, kw, kd, sv, wv, c. rewrite <- Hkd. eauto 15.
Qed.

Lemma populate_cloze_true CFG note note' :
  populate CFG note = Ok (true, note')
  ↔ ∃ nt ks kw kd sv wv c,
      note_type note = Some nt
      ∧ type_filtered (nt_filter isspace lower CFG) (lower (nt_name nt)) = false
      ∧ sentence_field CFG = VStr ks ∧ word_field CFG = VStr kw
      ∧ dest_field CFG = VStr kd
      ∧ note_fields note !! ks = Some sv ∧ note_fields note !! kw = Some wv
      ∧ is_Some (note_fields note !! kd)
      ∧ generate_cloze_sentence (trim sv) (trim wv) (mask_string CFG) = Ok (Some c)
      ∧ note' = with_field note kd c.
Proof.
  split.
  - intros H. apply populate_cloze_inv in H as [[? _] | H]; [done|].
    destruct H as (nt & ks & kw & kd & sv & wv & c & H). exists nt, ks, kw, kd, sv, wv, c.
    destruct H as (?&?&?&?&?&?&?&?&?&_&?). by repeat (split; [done|]).
  - intros (nt & ks & kw & kd & sv & wv & c
            & Hnt & Hf & Hks & Hkw & Hkd & Hsv & Hwv & [dv Hdv] & Hg & ->).
    rewrite populate_cloze_unfold, Hnt. simpl. rewrite Hf, Hks, Hkw, Hkd. simpl.
    rewrite !bool_decide_eq_true_2 by eauto. simpl. rewrite Hsv, Hwv. simpl.
    destruct (generate_cases (trim sv) (trim wv) (mask_string CFG))
      as [[_ Hn] | (pre & post & Hs & Hw & _)]; [congruence|].
    destruct (trim sv); [done|]. destruct (trim wv); [done|]. simpl.
    rewrite Hg. simpl. by rewrite Hdv.
Qed.

(** What the boolean of [populate_cloze] tells: the call returns [True]
    exactly when every check passed and the generator produced a masked
    sentence, which the call then stores in the destination field,
    whatever the field held; when it returns [False] the note is as it
    was. *)
Lemma populate_true_iff_written CFG note note' :
  (populate CFG note = Ok (true, note')
   ↔ ∃ nt ks kw kd sv wv c,
       note_type note = Some nt
       ∧ type_filtered (nt_filter isspace lower CFG) (lower (nt_name nt)) = false
       ∧ sentence_field CFG = VStr ks ∧ word_field CFG = VStr kw
       ∧ dest_field CFG = VStr kd
       ∧ note_fields note !! ks = Some sv ∧ note_fields note !! kw = Some wv
       ∧ is_Some (note_fields note !! kd)
       ∧ generate_cloze_sentence (trim sv) (trim wv) (mask_string CFG) = Ok (Some c)
       ∧ note' = with_field note kd c
       ∧ note_fields note' !! kd = Some c)
  ∧ (populate CFG note = Ok (false, note') ↔
     note' = note ∧ populate CFG note = Ok (false, note)).
Proof.
  split.
  - rewrite populate_cloze_true. split.
    + intros (nt & ks & kw & kd & sv & wv & c & H).
      exists nt, ks, kw, kd, sv, wv, c.
      destruct H as (?&?&?&?&?&?&?&?&?&->). repeat (split; [done|]).
      simpl. apply lookup_insert_eq.
    + intros (nt & ks & kw & kd & sv & wv & c & H).
      exists nt, ks, kw, kd, sv, wv, c.
      destruct H as (?&?&?&?&?&?&?&?&?&?&_). by repeat (split; [done|]).
  - split.
    + intros H. destruct (populate_cloze_inv _ _ _ _ H) as [[_ ->] | H']; [by split|].
      destruct H' as (?&?&?&?&?&?&?&?&?&?&?&?&?&?&?&?&?&?). done.
    + by intros [-> H].
Qed.

(** C5.  On a note that has a note type, when one of the checks fails the
    call returns [False] and the note, all its fields included, is as it
    was before the call. *)
Theorem populate_short_circuit CFG note nt :
  note_type note = Some nt →
  check_fails isspace lower CFG note →
  populate CFG note = Ok (false, note).
Proof.
  intros Hnt Hfail. rewrite populate_cloze_unfold, Hnt. simpl.
  destruct (type_filtered _ _) eqn:Hf; [done|].
  destruct Hfail as [nt' Hnt' Hf' | Hmiss | sv wv Hsv Hwv He | sv wv Hsv Hwv Hg].
  - congruence.
  - destruct Hmiss as [-> | [-> | ->]]; simpl; by rewrite ?orb_true_r.
  - destruct (negb _ || negb _ || negb _); [done|].
    rewrite Hsv, Hwv. simpl. by destruct He as [-> | ->]; rewrite ?orb_true_r.
  - destruct (negb _ || negb _ || negb _); [done|].
    rewrite Hsv, Hwv. simpl. destruct (negb _ || negb _); [done|].
    by rewrite Hg.
Qed.

(** C8.  Once a call has written the masked sentence, a second call on
    the resulting note, whose sentence and word fields still hold what
    they held, returns [True] again and writes the same value: the note,
    all its fields included, is the same after the second call. *)
Theorem populate_idempotent CFG note note' :
  populate CFG note = Ok (true, note') →
  note_getitem note' (sentence_field CFG) = note_getitem note (sentence_field CFG) →
  note_getitem note' (word_field CFG) = note_getitem note (word_field CFG) →
  populate CFG note' = Ok (true, note').
Proof.
  intros H Hs Hw. apply populate_cloze_true in H
    as (nt & ks & kw & kd & sv & wv & c
        & Hnt & Hf & Hks & Hkw & Hkd & Hsv & Hwv & Hdv & Hg & ->).
  apply populate_cloze_true. exists nt, ks, kw, kd, sv, wv, c.
  rewrite Hks in Hs. rewrite Hkw in Hw. simpl in Hs, Hw.
  rewrite Hsv in Hs. rewrite Hwv in Hw.
  repeat (split; [done|]). simpl. split; [|split; [|split; [|split]]].
  - destruct (<[kd:=c]> (note_fields note) !! ks); by simplify_eq.
  - destruct (<[kd:=c]> (note_fields note) !! kw); by simplify_eq.
  - rewrite lookup_insert_eq. eauto.
  - done.
  - unfold with_field. simpl. by rewrite insert_insert_eq.
Qed.

(** ** The note-type filter *)



(** The comprehension of the source and the wording of the specification
    build the same list. *)
Lemma comprehension_tokens (pieces : list str) :
  (t ← pieces; if truthy (trim t) then [lower (trim t)] else [])
  = lower <$> filter (λ p, p ≠ []) (trim <$> pieces).
Proof.
  induction pieces as [|t pieces IH]; [done|].
  cbn [mbind list_bind fmap list_fmap]. rewrite filter_cons.
  destruct (trim t) eqn:Ht; cbn [truthy].
  - rewrite decide_False by auto. apply IH.
  - rewrite decide_True by done. cbn. f_equal. apply IH.
Qed.

Lemma lstrip_spaces s : Forall (λ c, isspace c = true) s → lstrip isspace s = [].
Proof. induction 1 as [|c s Hc _ IH]; simpl; [done|]. by rewrite Hc. Qed.

Lemma strip_spaces s : Forall (λ c, isspace c = true) s → trim s = [].
Proof. intros H. unfold strip. by rewrite (lstrip_spaces s H). Qed.

Lemma split_commas_and_spaces s :
  commas_and_spaces isspace s →
  Forall (Forall (λ c, isspace c = true)) (split comma s).
Proof.
  induction 1 as [|c s Hc _ IH]; simpl.
  - by repeat constructor.
  - destruct (N.eqb_spec c comma) as [->|Hne].
    + by constructor.
    + destruct Hc as [? | Hc]; [done|].
      destruct (split comma s) as [|p ps].
      * by repeat constructor.
      * apply Forall_cons in IH as [Hp Hps]. by repeat constructor.
Qed.

Lemma nt_filter_commas_and_spaces CFG s :
  commas_and_spaces isspace s →
  nt_filter isspace lower (<[u "noteTypes" := VStr s]> CFG) = [].
Proof.
  intros Hs. unfold nt_filter, cfg_get. rewrite lookup_insert_eq. simpl.
  apply split_commas_and_spaces in Hs.
  induction Hs as [|p ps Hp _ IH]; [done|].
  cbn [mbind list_bind]. by rewrite (strip_spaces p Hp).
Qed.

(** The options other than ["noteTypes"] do not see a change of it. *)
Lemma cfg_get_other_than_noteTypes CFG v key dflt :
  u key ≠ u "noteTypes" →
  cfg_get (<[u "noteTypes" := v]> CFG) key dflt = cfg_get CFG key dflt.
Proof. intros Hne. unfold cfg_get. by rewrite lookup_insert_ne. Qed.

(** C10.  The filter tokens are the comma-separated pieces of the
    configured string, trimmed, without the pieces that are empty after
    trimming, lowercased.  So a [noteTypes] value made of commas and
    whitespace only gives no token, and [populate_cloze] does on every
    note what it does with the empty filter. *)
Theorem nt_filter_tokens CFG s note :
  commas_and_spaces isspace s →
  nt_filter isspace lower CFG
  = tokens_spec isspace lower (py_str (cfg_get CFG "noteTypes" (VStr [])))
  ∧ nt_filter isspace lower (<[u "noteTypes" := VStr s]> CFG) = []
  ∧ (∀ name, type_filtered
               (nt_filter isspace lower (<[u "noteTypes" := VStr s]> CFG))
               name = false)
  ∧ populate (<[u "noteTypes" := VStr s]> CFG) note
    = populate (<[u "noteTypes" := VStr []]> CFG) note.
Proof.
  intros Hs. split; [apply comprehension_tokens|].
  split; [by apply nt_filter_commas_and_spaces|].
  split; [intros name; by rewrite nt_filter_commas_and_spaces|].
  rewrite !populate_cloze_unfold.
  rewrite !nt_filter_commas_and_spaces by (done || constructor).
  unfold sentence_field, word_field, dest_field, mask_string.
  by rewrite !cfg_get_other_than_noteTypes by (vm_compute; discriminate).
Qed.

End PopulateProperties.

(** ** The bulk action *)

Section BulkProperties.

Variable isspace : char → bool.
Variable lower : str → str.
Variable normalize : str → str.

Lemma bulk_loop_app CFG done rest : ∀ col changed,
  bulk_loop isspace lower normalize CFG col changed (done ++ rest)
  = match bulk_loop isspace lower normalize CFG col changed done with
    | (col1, Ok n) => bulk_loop isspace lower normalize CFG col1 n rest
    | (col1, Raise e) => (col1, Raise e)
    end.
Proof.
  induction done as [|nid done IH]; intros col changed; [done|].
  cbn [app bulk_loop].
  destruct (get_note col nid) as [note|e]; [|done].
  destruct (populate_cloze isspace lower CFG note) as [[[] note']|e]; [| |done].
  - apply IH.
  - apply IH.
Qed.

Lemma bulk_loop_fails_first CFG col changed nid rest e :
  record_fails isspace lower CFG col nid e →
  bulk_loop isspace lower normalize CFG col changed (nid :: rest) = (col, Raise e).
Proof.
  intros [Hget | (note & Hget & Hpop)]; cbn [bulk_loop]; rewrite Hget; [done|].
  by rewrite Hpop.
Qed.

(** C6 (amended).  An exception raised while a record of the batch is
    fetched or populated is not caught: it leaves [bulk_generate_cloze]
    at that record.  The records before it have been processed, and those
    that changed are stored; the records after it are not processed and
    no summary is shown. *)
Theorem bulk_stops_at_first_failure stored col done nid rest col1 n e :
  bulk_loop isspace lower normalize (_load_cfg stored) col 0%nat done = (col1, Ok n) →
  record_fails isspace lower (_load_cfg stored) col1 nid e →
  bulk_generate_cloze isspace lower normalize stored col (done ++ nid :: rest)
  = (_load_cfg stored, col1, Raise e).
Proof.
  intros Hdone Hfail. unfold bulk_generate_cloze.
  replace (truthy (done ++ nid :: rest)) with true by (by destruct done).
  cbn [negb]. rewrite bulk_loop_app, Hdone.
  by rewrite (bulk_loop_fails_first _ _ _ _ _ _ Hfail).
Qed.

End BulkProperties.

(** ** Configuration *)

Lemma lookup_load_cfg stored k :
  _load_cfg stored !! k
  = match default ∅ stored !! k with
    | Some v => Some v
    | None => _defaults !! k
    end.
Proof.
  unfold _load_cfg. rewrite lookup_union.
  destruct (default ∅ stored !! k), (_defaults !! k); done.
Qed.

(** C7 (amended).  In a loaded configuration an option whose saved value
    is absent has its documented default, and an option with a saved
    value has that value, whatever it is. *)
Theorem load_cfg_overlay stored k :
  (default ∅ stored !! k = None → _load_cfg stored !! k = _defaults !! k)
  ∧ (∀ v, default ∅ stored !! k = Some v → _load_cfg stored !! k = Some v)
  ∧ _defaults !! u "sentenceField" = Some (VStr (u "Sentence"))
  ∧ _defaults !! u "wordField" = Some (VStr (u "Reading"))
  ∧ _defaults !! u "destinationField" = Some (VStr (u "ClozeSentence"))
  ∧ _defaults !! u "noteTypes" = Some (VStr [])
  ∧ _defaults !! u "maskString" = Some (VStr [9724; 9724; 9724]%N)
  ∧ _defaults !! u "bulkActionLabel" = Some (VStr (u "Generate Cloze Masks")).
Proof.
  rewrite lookup_load_cfg. split; [by intros ->|]. split; [by intros v ->|].
  repeat split; by vm_compute.
Qed.

(** X21.  The settings form is where a blank entry becomes the default:
    the dictionary it saves has the documented default for every one of
    the four defaulted options whose text is empty after trimming. *)
Lemma new_cfg_blank_defaults isspace CFG w_sentence w_word w_dest w_types w_mask
    w_lookup w_debug :
  let saved := new_cfg isspace CFG w_sentence w_word w_dest w_types w_mask
                 w_lookup w_debug in
  (strip isspace w_sentence = [] →
   saved !! u "sentenceField" = Some (VStr (u "Sentence")))
  ∧ (strip isspace w_word = [] →
     saved !! u "wordField" = Some (VStr (u "Reading")))
  ∧ (strip isspace w_dest = [] →
     saved !! u "destinationField" = Some (VStr (u "ClozeSentence")))
  ∧ (strip isspace w_mask = [] →
     saved !! u "maskString" = Some (VStr mask_default)).
Proof.
  unfold new_cfg. repeat split; intros ->; vm_compute; reflexivity.
Qed.

(** ** Worked examples

    The examples run the embedding with [isspace_table] and
    [lower_ascii]. *)

(** The first example of the specification, in ASCII: the word is masked
    in the destination field and the call returns [True]. *)
Example populate_fills_fresh_note :
  populate_cloze isspace_table lower_ascii _defaults
    (example_note vocab 1 (u "ab") (u "b") [])
  = Ok (true, filled_note).
Proof. by vm_compute. Qed.

(** The examples of the specification.  Sentence 彼は学校に行きます with the
    reading 学校: the destination becomes 彼は◼◼◼に行きます. *)
Example populate_masks_reading :
  populate_cloze isspace_table lower_ascii _defaults
    (example_note vocab 1
       [24444; 12399; 23398; 26657; 12395; 34892; 12365; 12414; 12377]%N
       [23398; 26657]%N [])
  = Ok (true,
        example_note vocab 1
          [24444; 12399; 23398; 26657; 12395; 34892; 12365; 12414; 12377]%N
          [23398; 26657]%N
          [24444; 12399; 9724; 9724; 9724; 12395; 34892; 12365; 12414; 12377]%N).
Proof. vm_compute. reflexivity. Qed.

(** The reading 存在しない does not occur in the sentence: [False], and the
    note is untouched. *)
Example populate_reading_absent :
  populate_cloze isspace_table lower_ascii _defaults
    (example_note vocab 1
       [24444; 12399; 23398; 26657; 12395; 34892; 12365; 12414; 12377]%N
       [23384; 22312; 12375; 12394; 12356]%N [])
  = Ok (false,
        example_note vocab 1
          [24444; 12399; 23398; 26657; 12395; 34892; 12365; 12414; 12377]%N
          [23384; 22312; 12375; 12394; 12356]%N []).
Proof. vm_compute. reflexivity. Qed.

(** With the filter ["verb,adj"] a note of type "Vocab Noun" is skipped
    whatever its fields hold. *)
Example populate_type_filtered sentence word cloze :
  populate_cloze isspace_table lower_ascii
    (<[u "noteTypes" := VStr (u "verb,adj")]> _defaults)
    (example_note (Some {| nt_name := u "Vocab Noun" |}) 1 sentence word cloze)
  = Ok (false,
        example_note (Some {| nt_name := u "Vocab Noun" |}) 1 sentence word cloze).
Proof. reflexivity. Qed.

(** C3.  The docstring of [populate_cloze] promises [True] if the note
    was modified, and the callers count the [True]s as updated notes.  The
    code does not keep to it: on a note whose destination field already
    holds the masked sentence the call returns [True], and the
    destination field, like the whole note, is what it was before the
    call. *)
Lemma populate_true_without_change :
  populate_cloze isspace_table lower_ascii _defaults filled_note
  = Ok (true, filled_note)
  ∧ note_fields filled_note !! u "ClozeSentence" = Some (u "a" ++ mask_default).
Proof. split; vm_compute; reflexivity. Qed.

Lemma populate_short_circuit_witness :
  check_fails isspace_table lower_ascii _defaults
    (example_note vocab 1 (u "ab") (u "zz") [])
  ∧ populate_cloze isspace_table lower_ascii _defaults
      (example_note vocab 1 (u "ab") (u "zz") [])
    = Ok (false, example_note vocab 1 (u "ab") (u "zz") []).
Proof.
  assert (check_fails isspace_table lower_ascii _defaults
            (example_note vocab 1 (u "ab") (u "zz") [])) as Hfail.
  { apply (not_applicable _ _ _ _ (u "ab") (u "zz")); by vm_compute. }
  split; [exact Hfail|].
  apply (populate_short_circuit isspace_table lower_ascii _defaults
           (example_note vocab 1 (u "ab") (u "zz") [])
           {| nt_name := u "Vocab" |}); [reflexivity | exact Hfail].
Defined.

Lemma populate_idempotent_witness :
  populate_cloze isspace_table lower_ascii _defaults filled_note
  = Ok (true, filled_note).
Proof.
  apply (populate_idempotent isspace_table lower_ascii _defaults
           (example_note vocab 1 (u "ab") (u "b") []) filled_note);
    by vm_compute.
Defined.

Lemma nt_filter_tokens_witness :
  nt_filter isspace_table lower_ascii _defaults
  = tokens_spec isspace_table lower_ascii
      (py_str (cfg_get _defaults "noteTypes" (VStr [])))
  ∧ nt_filter isspace_table lower_ascii
      (<[u "noteTypes" := VStr (u ", ,  ,")]> _defaults) = []
  ∧ (∀ name, type_filtered
               (nt_filter isspace_table lower_ascii
                  (<[u "noteTypes" := VStr (u ", ,  ,")]> _defaults))
               name = false)
  ∧ populate_cloze isspace_table lower_ascii
      (<[u "noteTypes" := VStr (u ", ,  ,")]> _defaults) fresh_note
    = populate_cloze isspace_table lower_ascii
        (<[u "noteTypes" := VStr []]> _defaults) fresh_note.
Proof.
  apply (nt_filter_tokens isspace_table lower_ascii _defaults
           (u ", ,  ,") fresh_note).
  unfold commas_and_spaces.
  repeat (constructor; [first [by left | by right]|]). constructor.
Defined.

(** C6, as stated, fails: note 1 of [example_col] has no note type, so
    reading its type name raises.  The batch [1; 2] ends with that
    exception and note 2 is left unfilled, although the batch [2] alone
    fills it. *)
Lemma bulk_aborts_on_broken_note :
  let run := bulk_generate_cloze isspace_table lower_ascii already_normal None example_col in
  (run [1; 2]).2 = Raise TypeError
  ∧ (run [1; 2]).1.2 !! 2 = Some fresh_note
  ∧ (run [2]).2 = Ok (UpdatedNotes 1)
  ∧ (run [2]).1.2 !! 2
    = Some (with_field fresh_note (u "ClozeSentence") (u "a" ++ mask_default)).
Proof. repeat split; vm_compute; reflexivity. Qed.

Lemma bulk_stops_at_first_failure_witness :
  bulk_generate_cloze isspace_table lower_ascii already_normal None example_col ([2] ++ 1 :: [2])
  = (_load_cfg None,
     <[2 := with_field fresh_note (u "ClozeSentence") (u "a" ++ mask_default)]>
       example_col,
     Raise TypeError).
Proof.
  apply (bulk_stops_at_first_failure isspace_table lower_ascii already_normal None
           example_col [2] 1 [2]
           (<[2 := with_field fresh_note (u "ClozeSentence") (u "a" ++ mask_default)]>
              example_col)
           1%nat TypeError).
  - vm_compute. reflexivity.
  - right. exists broken_note. split; vm_compute; reflexivity.
Defined.

(** C7, as stated, fails: a saved [sentenceField] of two spaces is empty
    after trimming, and the loaded configuration holds the two spaces,
    not the default ["Sentence"]. *)
Lemma load_cfg_keeps_blank_value :
  strip isspace_table (u "  ") = []
  ∧ _load_cfg (Some {[u "sentenceField" := VStr (u "  ")]}) !! u "sentenceField"
    = Some (VStr (u "  "))
  ∧ _load_cfg (Some {[u "sentenceField" := VStr (u "  ")]}) !! u "sentenceField"
    ≠ _defaults !! u "sentenceField".
Proof. repeat split; by vm_compute. Qed.

(** * Further properties *)

(** ** More on the mask generator *)

(** X1.  Masking a word by itself gives the sentence back: when the word
    occurs in the sentence (both non-empty) and the mask is the word, the
    generator returns the sentence. *)
Theorem generate_mask_is_word (s w : str) :
  s ≠ [] → w ≠ [] → substring w s →
  generate_cloze_sentence s w (VStr w) = Ok (Some s).
Proof.
  intros Hs Hw Hsub.
  destruct (generate_found s w w Hs Hw Hsub) as (pre & post & [Heq _] & Hgen).
  by rewrite Hgen, <- Heq.
Qed.

(** X2.  The generator raises exactly when the mask is not a string and
    the word is found (sentence and word non-empty); the exception is a
    [TypeError].  When the sentence is empty, the word is empty or the word
    is not found, it returns [None] whatever the mask is, a mask that is
    not a string included. *)
Theorem generate_raises_iff (s w : str) (mask : value) (e : exn) :
  (generate_cloze_sentence s w mask = Raise e
   ↔ e = TypeError ∧ (∃ b, mask = VBool b) ∧ s ≠ [] ∧ w ≠ [] ∧ substring w s)
  ∧ (s = [] ∨ w = [] ∨ ¬ substring w s →
     generate_cloze_sentence s w mask = Ok None).
Proof.
  destruct (generate_cases s w mask)
    as [[Hc Hgen] | (pre & post & Hs & Hw & [Heq _] & Hgen)]; rewrite Hgen.
  - split; [|done]. split; [done|]. intros (_ & _ & Hs & Hw & Hsub).
    by destruct Hc as [? | [? | ?]].
  - assert (substring w s) as Hsub by (by exists pre, post).
    split; [|by intros [? | [? | ?]]].
    destruct mask as [m|b]; simpl.
    + split; [done|]. by intros (_ & [b ?] & _).
    + split; [intros [= <-]; eauto 10 | by intros [-> _]].
Qed.

(** X3.  When the word is the whole (non-empty) sentence the generator
    returns the mask alone. *)
Theorem generate_whole_sentence (s m : str) :
  s ≠ [] → generate_cloze_sentence s s (VStr m) = Ok (Some m).
Proof.
  intros Hs.
  assert (substring s s) as Hsub by (exists [], []; by rewrite app_nil_r).
  destruct (generate_found s s m Hs Hs Hsub) as (pre & post & [Heq _] & Hgen).
  rewrite Hgen. apply (f_equal length) in Heq. rewrite !length_app in Heq.
  destruct pre; [|simpl in Heq; lia]. destruct post; [|simpl in Heq; lia].
  by rewrite app_nil_r.
Qed.

(** ** More on the record populator *)

Section MorePopulate.

Variable isspace : char → bool.
Variable lower : str → str.

Abbreviation populate := (populate_cloze isspace lower).
Abbreviation trim := (strip isspace).

(** X4.  A call that returns leaves the identifier and the note type of
    the note alone, neither adds nor removes a field, and changes no
    field other than the destination field. *)
Theorem populate_frame CFG note b note' :
  populate CFG note = Ok (b, note') →
  note_id note' = note_id note
  ∧ note_type note' = note_type note
  ∧ dom (note_fields note') = dom (note_fields note)
  ∧ ∀ k, dest_field CFG ≠ VStr k → note_fields note' !! k = note_fields note !! k.
Proof.
  intros H. apply populate_cloze_inv in H as [[_ ->] | H]; [done|].
  destruct H as (nt & ks & kw & kd & sv & wv & c
                 & _ & _ & _ & _ & Hkd & _ & _ & Hdv & _ & _ & ->).
  simpl. repeat split.
  - rewrite dom_insert_L. by apply subseteq_union_1_L, singleton_subseteq_l, elem_of_dom.
  - intros k Hk. rewrite lookup_insert_ne; [done|]. congruence.
Qed.

(** The calls that raise, for options that are strings or booleans: the
    note has no note type; or every check passes, the word is found and
    the configured mask is not a string. *)
Lemma populate_raises_iff CFG note e :
  populate CFG note = Raise e
  ↔ e = TypeError
    ∧ (note_type note = None
       ∨ ∃ nt ks kw kd sv wv b,
           note_type note = Some nt
           ∧ type_filtered (nt_filter isspace lower CFG) (lower (nt_name nt)) = false
           ∧ sentence_field CFG = VStr ks ∧ word_field CFG = VStr kw
           ∧ dest_field CFG = VStr kd
           ∧ note_fields note !! ks = Some sv ∧ note_fields note !! kw = Some wv
           ∧ is_Some (note_fields note !! kd)
           ∧ mask_string CFG = VBool b
           ∧ trim sv ≠ [] ∧ trim wv ≠ [] ∧ substring (trim wv) (trim sv)).
Proof.
  rewrite populate_cloze_unfold.
  destruct (note_type note) as [nt|] eqn:Hnt; simpl;
    [|split; [intros [= <-]; by split; [|left] | by intros [-> _]]].
  split.
  - destruct (type_filtered _ _) eqn:Hf; [done|].
    destruct (note_contains note (sentence_field CFG)) eqn:Hs; [|done].
    destruct (note_contains note (word_field CFG)) eqn:Hw; [|done].
    destruct (note_contains note (dest_field CFG)) eqn:Hd; [|done].
    apply note_contains_true in Hs as (ks & sv & Hks & Hsv).
    apply note_contains_true in Hw as (kw & wv & Hkw & Hwv).
    apply note_contains_true in Hd as (kd & dv & Hkd & Hdv).
    rewrite Hks, Hkw, Hkd. simpl. rewrite Hsv, Hwv. simpl.
    destruct (negb (truthy (trim sv)) || negb (truthy (trim wv))); [done|].
    destruct (generate_cases (trim sv) (trim wv) (mask_string CFG))
      as [[_ ->] | (pre & post & Hs & Hw & [Heq _] & ->)]; [done|].
    destruct (mask_string CFG) as [m|b] eqn:Hm; simpl.
    { by rewrite Hdv. }
    intros [= <-]. split; [done|]. right.
    exists nt, ks, kw, kd, sv, wv, b. repeat (split; [done|]).
    by exists pre, post.
  - intros [-> [? | H]]; [done|].
    destruct H as (nt' & ks & kw & kd & sv & wv & b & Hnt' & Hf & Hks & Hkw & Hkd
                   & Hsv & Hwv & [dv Hdv] & Hm & Hs & Hw & Hsub).
    simplify_eq. rewrite Hf, Hks, Hkw, Hkd. simpl.
    rewrite !bool_decide_eq_true_2 by eauto. simpl. rewrite Hsv, Hwv. simpl.
    destruct (generate_cases (trim sv) (trim wv) (mask_string CFG))
      as [[Hc _] | (pre & post & _ & _ & _ & Hgen)].
    { by destruct Hc as [? | [? | ?]]. }
    destruct (trim sv); [done|]. destruct (trim wv); [done|]. simpl.
    rewrite Hgen, Hm. done.
Qed.

(** X5.  On a note that has a note type, with a configuration whose
    sentence field, word field, destination field and mask are strings,
    [populate_cloze] does not raise: it returns its boolean.  The guard on
    the three field names makes the two reads and the write safe. *)
Theorem populate_returns CFG note nt ks kw kd m :
  note_type note = Some nt →
  sentence_field CFG = VStr ks →
  word_field CFG = VStr kw →
  dest_field CFG = VStr kd →
  mask_string CFG = VStr m →
  ∃ b note', populate_cloze isspace lower CFG note = Ok (b, note').
Proof.
  intros Hnt Hks Hkw Hkd Hm.
  destruct (populate CFG note) as [[b note']|e] eqn:Hpop; [eauto|].
  apply populate_raises_iff in Hpop as [_ [Hnone | H]]; [congruence|].
  destruct H as (?&?&?&?&?&?&b&_&_&_&_&_&_&_&_&Hb&_). congruence.
Qed.

(** X6.  What a successful call writes: with [sv] and [wv] the values of
    the sentence and word fields, the destination field holds the text
    before the first occurrence of the trimmed word in the trimmed
    sentence, the mask, and the text after that occurrence.  Whitespace
    around the sentence does not reach the destination. *)
Theorem populate_writes_masked_trimmed_sentence CFG note note' :
  populate CFG note = Ok (true, note') →
  ∃ ks kw kd sv wv m pre post,
    sentence_field CFG = VStr ks ∧ word_field CFG = VStr kw
    ∧ dest_field CFG = VStr kd ∧ mask_string CFG = VStr m
    ∧ note_fields note !! ks = Some sv ∧ note_fields note !! kw = Some wv
    ∧ first_occurrence (trim wv) (trim sv) pre post
    ∧ note_fields note' !! kd = Some (pre ++ m ++ post).
Proof.
  intros H. apply populate_cloze_true in H
    as (nt & ks & kw & kd & sv & wv & c
        & _ & _ & Hks & Hkw & Hkd & Hsv & Hwv & _ & Hg & ->).
  destruct (generate_cases (trim sv) (trim wv) (mask_string CFG))
    as [[_ Hn] | (pre & post & _ & _ & Hfo & Hgen)]; [congruence|].
  rewrite Hgen in Hg. destruct (mask_string CFG) as [m|b]; [|done].
  simpl in Hg. injection Hg as <-.
  exists ks, kw, kd, sv, wv, m, pre, post. repeat (split; [done|]).
  simpl. by rewrite lookup_insert_eq, <- app_assoc.
Qed.

Lemma cfg_get_union_defaults CFG key d :
  _defaults !! u key = Some d →
  cfg_get (CFG ∪ _defaults) key d = cfg_get CFG key d.
Proof.
  intros Hd. unfold cfg_get. rewrite lookup_union, Hd.
  by destruct (CFG !! u key).
Qed.

(** X7.  The fall-back arguments of the [CFG.get] calls in
    [populate_cloze] are the values of [_defaults]: the function does on
    the stored configuration alone what it does on the loaded one. *)
Theorem populate_load_cfg stored note :
  populate (_load_cfg stored) note = populate (default ∅ stored) note.
Proof.
  rewrite !populate_cloze_unfold.
  unfold nt_filter, sentence_field, word_field, dest_field, mask_string, _load_cfg.
  by rewrite !cfg_get_union_defaults by (vm_compute; reflexivity).
Qed.

End MorePopulate.

(** ** Splitting and trimming *)

Lemma split_not_nil sep s : split sep s ≠ [].
Proof.
  destruct s as [|c s]; simpl; [done|].
  destruct (c =? sep)%N; [done|]. by destruct (split sep s).
Qed.

Lemma join_split sep s : join sep (split sep s) = s.
Proof.
  induction s as [|c s IH]; simpl; [done|].
  destruct (split sep s) as [|p ps] eqn:Hsp; [by apply split_not_nil in Hsp|].
  destruct (N.eqb_spec c sep) as [->|Hne].
  - simpl. simpl in IH. by rewrite IH.
  - rewrite <- IH. by destruct ps.
Qed.

Lemma split_no_sep sep s : Forall (λ p, sep ∉ p) (split sep s).
Proof.
  induction s as [|c s IH]; simpl.
  - repeat constructor. apply not_elem_of_nil.
  - destruct (N.eqb_spec c sep) as [->|Hne].
    + constructor; [apply not_elem_of_nil | done].
    + destruct (split sep s) as [|p ps] eqn:Hsp; [by apply split_not_nil in Hsp|].
      apply Forall_cons in IH as [Hp Hps]. constructor; [|done].
      rewrite not_elem_of_cons. by split; [congruence|].
Qed.

Lemma split_piece_substring sep s p : p ∈ split sep s → substring p s.
Proof.
  revert p. induction s as [|c s IH]; simpl; intros p Hp.
  - apply list_elem_of_singleton in Hp as ->. by exists [], [].
  - destruct (split sep s) as [|q qs] eqn:Hsp; [by apply split_not_nil in Hsp|].
    destruct (N.eqb_spec c sep) as [->|Hne].
    + apply elem_of_cons in Hp as [-> | Hp].
      * by exists [], (sep :: s).
      * destruct (IH p Hp) as (pre & post & ->). by exists (sep :: pre), post.
    + apply elem_of_cons in Hp as [-> | Hp].
      * destruct (IH q) as (pre & post & Heq); [by left|].
        assert (s = join sep (q :: qs)) as Hs by (by rewrite <- Hsp, join_split).
        exists [], (drop (length q) s). simpl. f_equal.
        rewrite Hs. destruct qs; simpl.
        -- by rewrite drop_all, app_nil_r.
        -- by rewrite drop_app_length.
      * destruct (IH p) as (pre & post & ->); [by right|].
        by exists (c :: pre), post.
Qed.

(** X8.  Splitting loses nothing: joining the pieces with the separator
    gives the string back, no piece contains the separator, and there is
    one piece more than there are separators in the string (so the empty
    string gives one empty piece). *)
Theorem split_join sep s :
  join sep (split sep s) = s
  ∧ Forall (λ p, sep ∉ p) (split sep s)
  ∧ length (split sep s) = S (length (filter (λ c, c = sep) s)).
Proof.
  split; [apply join_split|]. split; [apply split_no_sep|].
  induction s as [|c s IH]; simpl; [done|].
  rewrite filter_cons. destruct (N.eqb_spec c sep) as [->|Hne].
  - rewrite decide_True by done. simpl. by rewrite IH.
  - rewrite decide_False by done.
    destruct (split sep s) as [|p ps] eqn:Hsp; [by apply split_not_nil in Hsp|].
    done.
Qed.

Section Trim.

Variable isspace : char → bool.
Variable lower : str → str.

Abbreviation trim := (strip isspace).

Lemma lstrip_split s :
  ∃ l, s = l ++ lstrip isspace s ∧ Forall (λ c, isspace c = true) l.
Proof.
  induction s as [|c s (l & Heq & Hl)]; simpl.
  - by exists [].
  - destruct (isspace c) eqn:Hc.
    + exists (c :: l). split; [simpl; by rewrite <- Heq | by constructor].
    + by exists [].
Qed.

Lemma lstrip_head s c : head (lstrip isspace s) = Some c → isspace c = false.
Proof.
  induction s as [|d s IH]; simpl; [done|].
  destruct (isspace d) eqn:Hd; [done|]. simpl. by intros [= <-].
Qed.

Lemma lstrip_fixed s :
  (∀ c, head s = Some c → isspace c = false) → lstrip isspace s = s.
Proof.
  destruct s as [|c s]; simpl; [done|]. intros H. by rewrite (H c).
Qed.

Lemma strip_decompose s :
  ∃ l r, s = l ++ trim s ++ r
         ∧ lstrip isspace s = trim s ++ r
         ∧ Forall (λ c, isspace c = true) l
         ∧ Forall (λ c, isspace c = true) r.
Proof.
  destruct (lstrip_split s) as (l & Hl & Hlsp).
  destruct (lstrip_split (reverse (lstrip isspace s))) as (r & Hr & Hrsp).
  assert (lstrip isspace s = trim s ++ reverse r) as Ht.
  { unfold strip, rstrip. rewrite <- reverse_app, <- Hr. by rewrite reverse_involutive. }
  exists l, (reverse r). split; [by rewrite <- Ht|]. split; [done|].
  split; [done | by apply Forall_reverse].
Qed.

Lemma strip_head s c : head (trim s) = Some c → isspace c = false.
Proof.
  destruct (strip_decompose s) as (l & r & _ & Ht & _).
  intros Hc. apply (lstrip_head s). rewrite Ht. by destruct (trim s).
Qed.

Lemma strip_last s c : last (trim s) = Some c → isspace c = false.
Proof.
  intros Hc. apply (lstrip_head (reverse (lstrip isspace s))).
  unfold strip, rstrip in Hc. by rewrite last_reverse in Hc.
Qed.

Lemma strip_substring s : substring (trim s) s.
Proof. destruct (strip_decompose s) as (l & r & Heq & _). by exists l, r. Qed.

(** X9.  [strip] removes the whitespace at both ends and nothing else:
    the input is whitespace, the result, whitespace; the result neither
    starts nor ends with a whitespace character; trimming twice is
    trimming once. *)
Theorem strip_removes_outer_whitespace s :
  (∃ l r, s = l ++ strip isspace s ++ r
          ∧ Forall (λ c, isspace c = true) l
          ∧ Forall (λ c, isspace c = true) r)
  ∧ (∀ c, head (strip isspace s) = Some c → isspace c = false)
  ∧ (∀ c, last (strip isspace s) = Some c → isspace c = false)
  ∧ strip isspace (strip isspace s) = strip isspace s.
Proof.
  split; [|split; [apply strip_head | split; [apply strip_last|]]].
  - destruct (strip_decompose s) as (l & r & Heq & _ & Hl & Hr). by exists l, r.
  - unfold strip at 1. rewrite (lstrip_fixed (trim s) (strip_head s)).
    unfold rstrip. rewrite lstrip_fixed; [by rewrite reverse_involutive|].
    intros c Hc. rewrite head_reverse in Hc. by apply (strip_last s).
Qed.

Lemma substring_trans a b c : substring a b → substring b c → substring a c.
Proof.
  intros (p1 & q1 & ->) (p2 & q2 & ->).
  exists (p2 ++ p1), (q1 ++ q2). by rewrite <- !app_assoc.
Qed.

Lemma substring_not_elem x a b : substring a b → x ∉ b → x ∉ a.
Proof.
  intros (p & q & ->) Hx Ha. apply Hx.
  rewrite !elem_of_app. right. by left.
Qed.

(** X10.  Every token of the note-type filter is the lowercased form of a
    non-empty piece of the configured string that contains no comma and
    neither starts nor ends with whitespace. *)
Theorem nt_filter_token_shape CFG t :
  t ∈ nt_filter isspace lower CFG →
  ∃ p, t = lower p
       ∧ p ≠ []
       ∧ (comma ∉ p)
       ∧ (∀ c, head p = Some c → isspace c = false)
       ∧ (∀ c, last p = Some c → isspace c = false)
       ∧ substring p (py_str (cfg_get CFG "noteTypes" (VStr []))).
Proof.
  unfold nt_filter. rewrite comprehension_tokens.
  rewrite list_elem_of_fmap. intros (p & -> & Hp).
  apply list_elem_of_filter in Hp as [Hne Hp].
  apply list_elem_of_fmap in Hp as (piece & -> & Hpiece).
  exists (trim piece). split; [done|]. split; [done|].
  pose proof (split_piece_substring _ _ _ Hpiece) as Hsub.
  pose proof (split_no_sep comma (py_str (cfg_get CFG "noteTypes" (VStr [])))) as Hno.
  rewrite Forall_forall in Hno.
  split; [|split; [apply strip_head | split; [apply strip_last|]]].
  - apply (substring_not_elem _ _ piece); [apply strip_substring | by apply Hno].
  - by apply (substring_trans _ piece); [apply strip_substring|].
Qed.

End Trim.

(** ** More on the configuration *)

Lemma union_covered (m1 m2 : gmap str value) : dom m2 ⊆ dom m1 → m1 ∪ m2 = m1.
Proof.
  intros Hdom. apply map_eq. intros k. rewrite lookup_union.
  destruct (m1 !! k) eqn:H1, (m2 !! k) eqn:H2; try done.
  assert (k ∈ dom m1) as Hk by (apply Hdom, elem_of_dom; eauto).
  apply elem_of_dom in Hk as [v' Hv']. congruence.
Qed.

Lemma new_cfg_dom isspace CFG w_sentence w_word w_dest w_types w_mask
    w_lookup w_debug :
  dom (new_cfg isspace CFG w_sentence w_word w_dest w_types w_mask
         w_lookup w_debug)
  = dom _defaults.
Proof.
  unfold new_cfg, _defaults. rewrite !dom_insert_L, dom_empty_L.
  generalize (u "sentenceField") (u "wordField") (u "destinationField")
    (u "noteTypes") (u "maskString") (u "lookupOnAdd") (u "bulkActionLabel")
    (u "debug").
  intros k1 k2 k3 k4 k5 k6 k7 k8. apply set_eq. intros x.
  rewrite !elem_of_union, !elem_of_singleton. tauto.
Qed.

(** X11.  In a loaded configuration every option that has a documented
    default is present, so the fall-back argument of a [CFG.get] on such
    an option is never what the call returns. *)
Theorem load_cfg_no_fallback stored key d d' :
  is_Some (_defaults !! u key) →
  cfg_get (_load_cfg stored) key d = cfg_get (_load_cfg stored) key d'.
Proof.
  intros [v Hv]. unfold cfg_get. rewrite lookup_load_cfg, Hv.
  by destruct (default ∅ stored !! u key).
Qed.

(** X12.  Loading is idempotent, and with nothing stored, or an empty
    dictionary stored, the loaded configuration is [_defaults]. *)
Theorem load_cfg_idempotent stored :
  _load_cfg (Some (_load_cfg stored)) = _load_cfg stored
  ∧ _load_cfg None = _defaults
  ∧ _load_cfg (Some ∅) = _defaults.
Proof.
  unfold _load_cfg. simpl. split; [|split; apply (left_id_L ∅ (∪))].
  by rewrite <- (assoc_L (∪)), (idemp_L (∪)).
Qed.

(** X13.  What the settings form saves is loaded back unchanged: the saved
    dictionary has exactly the keys of [_defaults], so the overlay adds
    nothing to it (and keys that were stored before, other than these,
    are gone). *)
Theorem save_load_roundtrip isspace CFG w_sentence w_word w_dest w_types w_mask
    w_lookup w_debug :
  let saved := new_cfg isspace CFG w_sentence w_word w_dest w_types w_mask
                 w_lookup w_debug in
  _load_cfg (Some saved) = saved ∧ dom saved = dom _defaults.
Proof.
  intros saved. split; [|apply new_cfg_dom].
  unfold _load_cfg. simpl. apply union_covered.
  unfold saved. by rewrite new_cfg_dom.
Qed.

Lemma str_or_nonempty a b : b ≠ [] → str_or a b ≠ [].
Proof. unfold str_or. by destruct a. Qed.

(** X14.  The dictionary the settings form saves holds, under the keys
    [sentenceField], [wordField], [destinationField] and [maskString],
    non-empty strings, whatever was typed. *)
Theorem new_cfg_never_blank isspace CFG w_sentence w_word w_dest w_types w_mask
    w_lookup w_debug :
  let saved := new_cfg isspace CFG w_sentence w_word w_dest w_types w_mask
                 w_lookup w_debug in
  (∃ s, saved !! u "sentenceField" = Some (VStr s) ∧ s ≠ [])
  ∧ (∃ s, saved !! u "wordField" = Some (VStr s) ∧ s ≠ [])
  ∧ (∃ s, saved !! u "destinationField" = Some (VStr s) ∧ s ≠ [])
  ∧ (∃ s, saved !! u "maskString" = Some (VStr s) ∧ s ≠ []).
Proof.
  intros saved. unfold saved, new_cfg. split; [|split; [|split]].
  - exists (str_or (strip isspace w_sentence) (u "Sentence")).
    split; [vm_compute; reflexivity | by apply str_or_nonempty].
  - exists (str_or (strip isspace w_word) (u "Reading")).
    split; [vm_compute; reflexivity | by apply str_or_nonempty].
  - exists (str_or (strip isspace w_dest) (u "ClozeSentence")).
    split; [vm_compute; reflexivity | by apply str_or_nonempty].
  - exists (str_or (strip isspace w_mask) mask_default).
    split; [vm_compute; reflexivity | by apply str_or_nonempty].
Qed.

(** ** More on the bulk action *)

Section MoreBulk.

Variable isspace : char → bool.
Variable lower : str → str.
Variable normalize : str → str.

Abbreviation populate := (populate_cloze isspace lower).
Abbreviation loop := (bulk_loop isspace lower normalize).

(** A call that returns keeps the identifier of the note. *)
Lemma populate_keeps_id CFG note b note' :
  populate CFG note = Ok (b, note') → note_id note' = note_id note.
Proof.
  intros H. apply populate_cloze_inv in H as [[_ ->] | H]; [done|].
  by destruct H as (?&?&?&?&?&?&?&?&?&?&?&?&?&?&?&?&?&->).
Qed.

(** The count only grows, by at most one per identifier, and a count that
    did not grow means that nothing was stored. *)
Lemma bulk_loop_count CFG nids : ∀ col changed col' n,
  loop CFG col changed nids = (col', Ok n) →
  (changed ≤ n ≤ changed + length nids)%nat ∧ (n = changed → col' = col).
Proof.
  induction nids as [|nid rest IH]; intros col changed col' n; cbn [bulk_loop].
  - intros [= <- <-]. simpl. split; [lia | done].
  - destruct (get_note col nid) as [note|e]; [|done].
    destruct (populate CFG note) as [[[] note']|e]; [| |done]; intros H;
      apply IH in H as [Hn Hcol]; simpl; (split; [lia|]); [lia | done].
Qed.

(** The loop keeps the collection well-formed, creates and deletes no
    note, and leaves the notes it is not asked about alone. *)
Lemma bulk_loop_frame CFG nids : ∀ col changed col' r,
  ids_match col →
  loop CFG col changed nids = (col', r) →
  ids_match col' ∧ dom col' = dom col ∧ ∀ k, k ∉ nids → col' !! k = col !! k.
Proof.
  induction nids as [|nid rest IH]; intros col changed col' r Hids; cbn [bulk_loop].
  - by intros [= <- <-].
  - unfold get_note. destruct (col !! nid) as [note|] eqn:Hnote; [|by intros [= <- <-]].
    destruct (populate CFG note) as [[[] note']|e] eqn:Hpop; [| |by intros [= <- <-]].
    + pose proof (populate_keeps_id _ _ _ _ Hpop) as Hid.
      rewrite (Hids _ _ Hnote) in Hid.
      intros H. apply IH in H as (Hids' & Hdom & Hother).
      * split; [done|]. split.
        -- rewrite Hdom. case_decide; [done|]. unfold update_note.
           rewrite dom_insert_L, Hid.
           by apply subseteq_union_1_L, singleton_subseteq_l, elem_of_dom.
        -- intros k Hk. apply not_elem_of_cons in Hk as [Hk1 Hk2].
           rewrite (Hother k Hk2). case_decide; [done|]. unfold update_note.
           rewrite Hid. by rewrite lookup_insert_ne.
      * case_decide; [done|]. unfold update_note. rewrite Hid.
        intros k n. destruct (decide (k = nid)) as [->|Hne].
        -- rewrite lookup_insert_eq. by intros [= <-].
        -- rewrite lookup_insert_ne by done. apply Hids.
    + intros H. apply IH in H as (Hids' & Hdom & Hother); [|done].
      split; [done|]. split; [done|].
      intros k Hk. apply not_elem_of_cons in Hk as [_ Hk]. by apply Hother.
Qed.

Lemma bulk_generate_cloze_loop stored col nids CFG col' r :
  bulk_generate_cloze isspace lower normalize stored col nids = (CFG, col', r) →
  CFG = _load_cfg stored
  ∧ (nids = [] ∧ col' = col ∧ r = Ok NoNotesSelected
     ∨ nids ≠ [] ∧ ∃ r', loop (_load_cfg stored) col 0%nat nids = (col', r')
         ∧ r = (changed ← r';
                Ok (match changed with
                    | O => NoNotesNeeded
                    | S _ => UpdatedNotes changed
                    end))).
Proof.
  unfold bulk_generate_cloze. destruct nids as [|nid rest]; cbn [truthy negb].
  - intros [= <- <- <-]. split; [done|]. by left.
  - destruct (loop _ _ _ _) as [col1 r1].
    intros [= <- <- <-]. split; [done|]. right. split; [done|]. by exists r1.
Qed.

(** X15.  The bulk action only touches the notes it is given: on a
    collection that stores every note under its identifier, it creates
    and deletes no note, leaves every note that is not in the batch as it
    was, and the collection still stores every note under its identifier;
    also when an exception ends the batch early. *)
Theorem bulk_only_touches_listed_notes stored col nids CFG col' r :
  ids_match col →
  bulk_generate_cloze isspace lower normalize stored col nids = (CFG, col', r) →
  ids_match col' ∧ dom col' = dom col ∧ ∀ k, k ∉ nids → col' !! k = col !! k.
Proof.
  intros Hids H.
  apply bulk_generate_cloze_loop in H as [_ [(_ & -> & _) | (_ & r' & H & _)]]; [done|].
  by apply (bulk_loop_frame _ _ _ _ _ _ Hids H).
Qed.

(** X16.  The summary of a batch that ran to its end: "No notes selected"
    is shown for the empty batch and for no other; "No notes needed"
    means that the collection is exactly as before; "Updated n notes"
    has n between 1 and the size of the batch. *)
Theorem bulk_summary stored col nids CFG col' tip :
  bulk_generate_cloze isspace lower normalize stored col nids = (CFG, col', Ok tip) →
  (tip = NoNotesSelected ↔ nids = [])
  ∧ (tip = NoNotesNeeded → col' = col)
  ∧ (∀ n, tip = UpdatedNotes n → (1 ≤ n ≤ length nids)%nat).
Proof.
  intros H.
  apply bulk_generate_cloze_loop in H
    as [_ [(-> & -> & [= ->]) | (Hne & r' & H & Hr)]]; [by repeat split|].
  destruct r' as [n|e]; [|done]. simpl in Hr.
  apply bulk_loop_count in H as [Hn Hcol].
  destruct n as [|n]; injection Hr as ->.
  - split; [done|]. split; [intros _; by apply Hcol | done].
  - split; [done|]. split; [done|]. intros ? [= <-]. lia.
Qed.

(** X17.  A batch without repeated identifiers and without the identifier
    0, run to its end on a collection that stores every note under its
    identifier, has applied [populate_cloze] once to each of its notes:
    where the call returned [True], the collection holds the note the call
    produced, in the form in which the host stores it; where it returned
    [False], the collection holds the note as it was. *)
Theorem bulk_applies_populate stored col nids CFG col' tip :
  ids_match col → NoDup nids → 0 ∉ nids →
  bulk_generate_cloze isspace lower normalize stored col nids
  = (CFG, col', Ok tip) →
  ∀ nid, nid ∈ nids →
    ∃ note b note',
      col !! nid = Some note
      ∧ populate CFG note = Ok (b, note')
      ∧ col' !! nid = Some (if b then stored_note normalize note' else note).
Proof.
  intros Hids Hnd H0 H.
  apply bulk_generate_cloze_loop in H as [-> [(-> & _) | (_ & r' & H & Hr)]].
  { intros nid Hnid. by apply elem_of_nil in Hnid. }
  destruct r' as [n|e]; [clear Hr|done].
  revert col Hids H. generalize 0%nat as changed.
  induction nids as [|nid rest IH]; intros changed col Hids H x Hx.
  { by apply elem_of_nil in Hx. }
  apply NoDup_cons in Hnd as [Hnid Hnd].
  apply not_elem_of_cons in H0 as [Hz H0].
  cbn [bulk_loop] in H. unfold get_note in H.
  destruct (col !! nid) as [note|] eqn:Hnote; [|done].
  destruct (populate (_load_cfg stored) note) as [[b note']|e] eqn:Hpop; [|done].
  pose proof (populate_keeps_id _ _ _ _ Hpop) as Hid.
  rewrite (Hids _ _ Hnote) in Hid.
  destruct b.
  - rewrite decide_False in H by lia. unfold update_note in H. rewrite Hid in H.
    assert (ids_match (<[nid := stored_note normalize note']> col)) as Hids1.
    { intros k m. destruct (decide (k = nid)) as [->|Hne].
      - rewrite lookup_insert_eq. by intros [= <-].
      - rewrite lookup_insert_ne by done. apply Hids. }
    apply elem_of_cons in Hx as [-> | Hx].
    + exists note, true, note'. split; [done|]. split; [done|].
      destruct (bulk_loop_frame _ _ _ _ _ _ Hids1 H) as (_ & _ & Hother).
      by rewrite (Hother nid Hnid), lookup_insert_eq.
    + destruct (IH Hnd H0 _ _ Hids1 H x Hx) as (m & b & m' & Hm & Hp & Hm').
      exists m, b, m'. split; [|done].
      rewrite lookup_insert_ne in Hm; [done|]. by intros ->.
  - apply elem_of_cons in Hx as [-> | Hx].
    + exists note, false, note'. split; [done|]. split; [done|].
      destruct (bulk_loop_frame _ _ _ _ _ _ Hids H) as (_ & _ & Hother).
      by rewrite (Hother nid Hnid), Hnote.
    + by apply (IH Hnd H0 _ _ Hids H).
Qed.

End MoreBulk.

(** ** The editor hook *)

Lemma index_from_spec names x : ∀ i,
  match index_from i names x with
  | Some j => ∃ n : nat, j = i + Z.of_nat n ∧ names !! n = Some x
                         ∧ ∀ m : nat, (m < n)%nat → names !! m ≠ Some x
  | None => x ∉ names
  end.
Proof.
  induction names as [|y names IH]; intros i; simpl.
  - apply not_elem_of_nil.
  - destruct (decide (y = x)) as [->|Hne].
    + exists 0%nat. split; [lia|]. split; [done|]. intros m Hm. lia.
    + specialize (IH (i + 1)). destruct (index_from (i + 1) names x) as [j|].
      * destruct IH as (n & -> & Hn & Hfirst). exists (S n).
        split; [lia|]. split; [done|]. intros [|m] Hm; simpl.
        -- by intros [= ->].
        -- apply Hfirst. lia.
      * rewrite not_elem_of_cons. by split.
Qed.

(** In a list without repetition the index of a name is its position. *)
Lemma index_from_NoDup names (n : nat) x :
  NoDup names → names !! n = Some x →
  index_from 0 names x = Some (Z.of_nat n).
Proof.
  intros Hnd Hn. pose proof (index_from_spec names x 0) as H.
  destruct (index_from 0 names x) as [j|].
  - destruct H as (n' & -> & Hn' & _).
    by rewrite (NoDup_lookup _ _ _ _ Hnd Hn Hn').
  - exfalso. apply H. apply list_elem_of_lookup. eauto.
Qed.

(** A position that holds another name is not the index of the name. *)
Lemma idx_eq_index_from names x (field_idx : Z) :
  idx_eq field_idx (index_from 0 names x) = true →
  ∃ n : nat, field_idx = Z.of_nat n ∧ names !! n = Some x.
Proof.
  pose proof (index_from_spec names x 0) as H.
  destruct (index_from 0 names x) as [j|]; simpl; [|done].
  destruct H as (n & -> & Hn & _). intros Heq%Z.eqb_eq. exists n.
  split; [lia | done].
Qed.

Section EditorProperties.

Variable isspace : char → bool.
Variable lower : str → str.
Variable field_names : option Notetype → result (list str).

Abbreviation populate := (populate_cloze isspace lower).

Lemma idx_eq_option names key (field_idx : Z) :
  idx_eq field_idx (index_or_none names key) = true →
  ∃ (n : nat) k, key = VStr k ∧ field_idx = Z.of_nat n ∧ names !! n = Some k.
Proof.
  destruct key as [k|b]; simpl; [|done].
  intros (n & Hn & Hk)%idx_eq_index_from. eauto.
Qed.

(** X18.  The hook does nothing (the flag is returned, the note is as it
    was, nothing is flushed) when the option [lookupOnAdd] is false, in
    which case the host is not even asked for the field names, and when
    the field that lost focus is at a position that holds neither the
    sentence field nor the word field, negative and out-of-range
    positions included. *)
Theorem on_edit_focus_inert {A : Type} CFG (flag : A) note field_idx :
  value_truthy (cfg_get CFG "lookupOnAdd" (VBool true)) = false
  ∨ (∃ names, field_names (note_type note) = Ok names
       ∧ ∀ (n : nat) k, names !! n = Some k →
           sentence_field CFG = VStr k ∨ word_field CFG = VStr k →
           field_idx ≠ Z.of_nat n) →
  on_edit_focus isspace lower field_names CFG flag note field_idx
  = Ok (flag, false, note).
Proof.
  unfold on_edit_focus. intros [-> | (names & -> & Hother)]; [done|].
  destruct (value_truthy _); [|done]. simpl.
  destruct (idx_eq field_idx (index_or_none names
              (cfg_get CFG "sentenceField" (VStr (u "Sentence"))))) eqn:Hs.
  { apply idx_eq_option in Hs as (n & k & Hk & -> & Hn).
    exfalso. apply (Hother n k Hn); [by left | done]. }
  destruct (idx_eq field_idx (index_or_none names
              (cfg_get CFG "wordField" (VStr (u "Reading"))))) eqn:Hw; [|done].
  apply idx_eq_option in Hw as (n & k & Hk & -> & Hn).
  exfalso. apply (Hother n k Hn); [by right | done].
Qed.

(** X19.  With [lookupOnAdd] true and field names without repetition,
    leaving the sentence field or the word field runs [populate_cloze]
    on the note.  The hook raises what the call raises.  When the call
    returns [True] the note is flushed, which the host refuses with an
    exception for a note that was never saved (identifier 0); for a saved
    note the hook returns the flag with the note the call produced.  When
    the call returns [False] nothing is flushed and the hook returns the
    flag. *)
Theorem on_edit_focus_triggers {A : Type} CFG (flag : A) note names (n : nat) k :
  value_truthy (cfg_get CFG "lookupOnAdd" (VBool true)) = true →
  field_names (note_type note) = Ok names →
  NoDup names →
  names !! n = Some k →
  sentence_field CFG = VStr k ∨ word_field CFG = VStr k →
  on_edit_focus isspace lower field_names CFG flag note (Z.of_nat n)
  = (r ← populate_cloze isspace lower CFG note;
     let '(changed, note') := (r : bool * Note) in
     if changed then
       if decide (note_id note = 0) then Raise HostError
       else Ok (flag, true, note')
     else Ok (flag, false, note')).
Proof.
  intros Hon Hnames Hnd Hn Hk. unfold on_edit_focus. rewrite Hon, Hnames. simpl.
  assert (idx_eq (Z.of_nat n)
            (index_or_none names (cfg_get CFG "sentenceField" (VStr (u "Sentence"))))
          || idx_eq (Z.of_nat n)
               (index_or_none names (cfg_get CFG "wordField" (VStr (u "Reading"))))
          = true) as ->.
  { apply orb_true_iff. unfold sentence_field, word_field in Hk.
    destruct Hk as [-> | ->]; [left | right]; simpl;
      rewrite (index_from_NoDup names n k Hnd Hn); simpl; by apply Z.eqb_eq. }
  destruct (populate CFG note) as [[[] note']|e] eqn:Hpop; simpl; [|done|done].
  unfold flush. rewrite (populate_keeps_id _ _ _ _ _ _ Hpop).
  by destruct (decide (note_id note = 0)).
Qed.

(** X20.  Whenever the hook returns, it returns the flag it was given;
    it has flushed the note exactly when [populate_cloze] returned [True]
    on it, and a note that was not flushed is as it was. *)
Theorem on_edit_focus_returns {A : Type} CFG (flag flag' : A) note field_idx
    flushed note' :
  on_edit_focus isspace lower field_names CFG flag note field_idx
  = Ok (flag', flushed, note') →
  flag' = flag
  ∧ (flushed = true → populate_cloze isspace lower CFG note = Ok (true, note'))
  ∧ (flushed = false → note' = note).
Proof.
  unfold on_edit_focus.
  destruct (value_truthy _); simpl; [|by intros [= <- <- <-]].
  destruct (field_names (note_type note)) as [names|e]; simpl; [|done].
  destruct (_ || _); [|by intros [= <- <- <-]].
  destruct (populate CFG note) as [[[] note1]|e] eqn:Hpop; simpl; [| |done].
  - unfold flush. destruct (decide (note_id note1 = 0)); simpl; [done|].
    by intros [= <- <- <-].
  - intros [= <- <- <-]. split; [done|]. split; [done|]. intros _.
    apply populate_cloze_inv in Hpop as [[_ ->] | Hpop]; [done|].
    by destruct Hpop as (?&?&?&?&?&?&?&?&?&?&?&?&?&?&?&?&?&?).
Qed.

End EditorProperties.

(** ** Further worked examples *)

Lemma generate_mask_is_word_witness :
  generate_cloze_sentence (u "abcabc") (u "bc") (VStr (u "bc"))
  = Ok (Some (u "abcabc")).
Proof.
  apply (generate_mask_is_word (u "abcabc") (u "bc"));
    [discriminate | discriminate | by exists (u "a"), (u "abc")].
Defined.

Lemma generate_whole_sentence_witness :
  generate_cloze_sentence (u "abc") (u "abc") (VStr mask_default)
  = Ok (Some mask_default).
Proof. apply (generate_whole_sentence (u "abc") mask_default). discriminate. Defined.

Lemma populate_frame_witness :
  note_id filled_note = note_id (example_note vocab 1 (u "ab") (u "b") [])
  ∧ note_type filled_note = note_type (example_note vocab 1 (u "ab") (u "b") [])
  ∧ dom (note_fields filled_note)
    = dom (note_fields (example_note vocab 1 (u "ab") (u "b") []))
  ∧ ∀ k, dest_field _defaults ≠ VStr k →
      note_fields filled_note !! k
      = note_fields (example_note vocab 1 (u "ab") (u "b") []) !! k.
Proof.
  apply (populate_frame isspace_table lower_ascii _defaults
           (example_note vocab 1 (u "ab") (u "b") []) true filled_note).
  vm_compute. reflexivity.
Defined.

Lemma populate_returns_witness :
  ∃ b note',
    populate_cloze isspace_table lower_ascii _defaults fresh_note = Ok (b, note').
Proof.
  apply (populate_returns isspace_table lower_ascii _defaults fresh_note
           {| nt_name := u "Vocab" |} (u "Sentence") (u "Reading")
           (u "ClozeSentence") mask_default); vm_compute; reflexivity.
Defined.

Lemma populate_writes_masked_trimmed_sentence_witness :
  ∃ ks kw kd sv wv m pre post,
    sentence_field _defaults = VStr ks ∧ word_field _defaults = VStr kw
    ∧ dest_field _defaults = VStr kd ∧ mask_string _defaults = VStr m
    ∧ note_fields (example_note vocab 1 (u " ab ") (u "b") []) !! ks = Some sv
    ∧ note_fields (example_note vocab 1 (u " ab ") (u "b") []) !! kw = Some wv
    ∧ first_occurrence (strip isspace_table wv) (strip isspace_table sv) pre post
    ∧ note_fields
        (example_note vocab 1 (u " ab ") (u "b") (u "a" ++ mask_default)) !! kd
      = Some (pre ++ m ++ post).
Proof.
  apply (populate_writes_masked_trimmed_sentence isspace_table lower_ascii
           _defaults (example_note vocab 1 (u " ab ") (u "b") [])).
  vm_compute. reflexivity.
Defined.

Lemma nt_filter_token_shape_witness :
  ∃ p, u "noun" = lower_ascii p
       ∧ p ≠ []
       ∧ (comma ∉ p)
       ∧ (∀ c, head p = Some c → isspace_table c = false)
       ∧ (∀ c, last p = Some c → isspace_table c = false)
       ∧ substring p
           (py_str (cfg_get (<[u "noteTypes" := VStr (u "verb, Noun ,")]> _defaults)
                      "noteTypes" (VStr []))).
Proof.
  apply (nt_filter_token_shape isspace_table lower_ascii
           (<[u "noteTypes" := VStr (u "verb, Noun ,")]> _defaults) (u "noun")).
  apply list_elem_of_lookup. exists 1%nat. vm_compute. reflexivity.
Defined.

Lemma load_cfg_no_fallback_witness :
  cfg_get (_load_cfg (Some {[u "debug" := VBool true]})) "maskString" (VStr [])
  = cfg_get (_load_cfg (Some {[u "debug" := VBool true]})) "maskString"
      (VStr mask_default).
Proof.
  apply (load_cfg_no_fallback (Some {[u "debug" := VBool true]}) "maskString").
  exists (VStr mask_default). vm_compute. reflexivity.
Defined.

Lemma example_col_ids_match : ids_match example_col.
Proof.
  intros nid note. unfold example_col.
  destruct (decide (nid = 1)) as [->|H1].
  { rewrite lookup_insert_eq. by intros [= <-]. }
  rewrite lookup_insert_ne by done.
  destruct (decide (nid = 2)) as [->|H2].
  { rewrite lookup_insert_eq. by intros [= <-]. }
  by rewrite lookup_insert_ne.
Qed.

(** The batch [2] on [example_col]: note 2 is filled and stored. *)
Lemma example_batch :
  bulk_generate_cloze isspace_table lower_ascii already_normal None example_col [2]
  = (_load_cfg None,
     <[2 := with_field fresh_note (u "ClozeSentence") (u "a" ++ mask_default)]>
       example_col,
     Ok (UpdatedNotes 1)).
Proof.
  unfold bulk_generate_cloze. cbn [truthy negb].
  replace (bulk_loop isspace_table lower_ascii already_normal (_load_cfg None) example_col 0 [2])
    with (<[2 := with_field fresh_note (u "ClozeSentence") (u "a" ++ mask_default)]>
            example_col, Ok 1%nat : result nat)
    by (vm_compute; reflexivity).
  reflexivity.
Qed.

Lemma bulk_only_touches_listed_notes_witness :
  ids_match
    (<[2 := with_field fresh_note (u "ClozeSentence") (u "a" ++ mask_default)]>
       example_col)
  ∧ dom (<[2 := with_field fresh_note (u "ClozeSentence") (u "a" ++ mask_default)]>
           example_col)
    = dom example_col
  ∧ ∀ k, k ∉ [2] →
      <[2 := with_field fresh_note (u "ClozeSentence") (u "a" ++ mask_default)]>
        example_col !! k
      = example_col !! k.
Proof.
  apply (bulk_only_touches_listed_notes isspace_table lower_ascii already_normal None
           example_col [2] (_load_cfg None) _ (Ok (UpdatedNotes 1))
           example_col_ids_match example_batch).
Defined.

Lemma bulk_summary_witness :
  (UpdatedNotes 1 = NoNotesSelected ↔ [2] = [])
  ∧ (UpdatedNotes 1 = NoNotesNeeded →
     <[2 := with_field fresh_note (u "ClozeSentence") (u "a" ++ mask_default)]>
       example_col
     = example_col)
  ∧ (∀ n, UpdatedNotes 1 = UpdatedNotes n → (1 ≤ n ≤ length [2])%nat).
Proof.
  apply (bulk_summary isspace_table lower_ascii already_normal None example_col [2]
           (_load_cfg None) _ (UpdatedNotes 1) example_batch).
Defined.

Lemma bulk_applies_populate_witness :
  ∃ note b note',
    example_col !! 2 = Some note
    ∧ populate_cloze isspace_table lower_ascii (_load_cfg None) note
      = Ok (b, note')
    ∧ <[2 := with_field fresh_note (u "ClozeSentence") (u "a" ++ mask_default)]>
        example_col !! 2
      = Some (if b then stored_note already_normal note' else note).
Proof.
  apply (bulk_applies_populate isspace_table lower_ascii already_normal None
           example_col [2] (_load_cfg None) _ (UpdatedNotes 1)
           example_col_ids_match).
  - apply NoDup_singleton.
  - apply not_elem_of_cons. split; [done | apply not_elem_of_nil].
  - exact example_batch.
  - by apply list_elem_of_singleton.
Defined.

(** In the examples of the hook the host lists the fields as Sentence,
    Reading, ClozeSentence. *)
Lemma on_edit_focus_inert_witness :
  on_edit_focus isspace_table lower_ascii
    (λ _, Ok [u "Sentence"; u "Reading"; u "ClozeSentence"])
    (<[u "lookupOnAdd" := VBool false]> _defaults) true fresh_note 0
  = Ok (true, false, fresh_note).
Proof.
  apply (on_edit_focus_inert isspace_table lower_ascii
           (λ _, Ok [u "Sentence"; u "Reading"; u "ClozeSentence"])
           (<[u "lookupOnAdd" := VBool false]> _defaults) true fresh_note 0).
  left. vm_compute. reflexivity.
Defined.

Lemma on_edit_focus_triggers_witness :
  on_edit_focus isspace_table lower_ascii
    (λ _, Ok [u "Sentence"; u "Reading"; u "ClozeSentence"])
    _defaults true fresh_note (Z.of_nat 1)
  = (r ← populate_cloze isspace_table lower_ascii _defaults fresh_note;
     let '(changed, note') := (r : bool * Note) in
     if changed then
       if decide (note_id fresh_note = 0) then Raise HostError
       else Ok (true, true, note')
     else Ok (true, false, note')).
Proof.
  apply (on_edit_focus_triggers isspace_table lower_ascii
           (λ _, Ok [u "Sentence"; u "Reading"; u "ClozeSentence"])
           _defaults true fresh_note
           [u "Sentence"; u "Reading"; u "ClozeSentence"] 1 (u "Reading")).
  - vm_compute. reflexivity.
  - reflexivity.
  - apply (bool_decide_unpack _). vm_compute. exact I.
  - reflexivity.
  - right. vm_compute. reflexivity.
Defined.

(** Leaving the word field of a note that is being added (identifier 0)
    fills the destination and then fails in [flush]. *)
Example on_edit_focus_new_note :
  on_edit_focus isspace_table lower_ascii
    (λ _, Ok [u "Sentence"; u "Reading"; u "ClozeSentence"])
    _defaults true (example_note vocab 0 (u "ab") (u "b") []) 1
  = Raise HostError.
Proof. vm_compute. reflexivity. Qed.

Lemma on_edit_focus_returns_witness :
  true = true
  ∧ (true = true →
     populate_cloze isspace_table lower_ascii _defaults fresh_note
     = Ok (true, with_field fresh_note (u "ClozeSentence") (u "a" ++ mask_default)))
  ∧ (true = false →
     with_field fresh_note (u "ClozeSentence") (u "a" ++ mask_default) = fresh_note).
Proof.
  apply (on_edit_focus_returns isspace_table lower_ascii
           (λ _, Ok [u "Sentence"; u "Reading"; u "ClozeSentence"])
           _defaults true true fresh_note 0 true
           (with_field fresh_note (u "ClozeSentence") (u "a" ++ mask_default))).
  vm_compute. reflexivity.
Defined.
